(** * PyTorch_DQN_Demo.py: replay memory, action selection and the
      bookkeeping of the training loop

    A shallow embedding of the parts of [PyTorch_DQN_Demo.py] that have a
    behaviour of their own: the [ReplayMemory] ring buffer, the calls it
    makes into Python's [random] module, [select_action], [optimize_model]'s
    guard, [plot_durations] and the end-of-episode steps of the training
    loop.  Python integers are [Z]; Python lists are [list]s indexed the way
    Python indexes them; exceptions are an explicit outcome. *)

From Stdlib Require Import ZArith Lia QArith Qcanon FunctionalExtensionality.
From Stdlib Require Import Ascii String DecimalString DecimalNat DecimalPos.
From stdpp Require Import base numbers list strings gmap.

Local Open Scope Z_scope.

(* stdpp's solvers clear hypotheses that are already gone *)
#[local] Set Warnings "-clear-no-such-hyp".

(** ** Outcomes of a Python call *)

Inductive exn : Type :=
| IndexError
| ValueError
| ZeroDivisionError
| RuntimeError.

(** A call returns a value, raises, or (for the one loop of the script's
    dependencies that has no bound, the rejection loop of [random.sample])
    is cut off by the fuel of the model. *)
Inductive outcome (A : Type) : Type :=
| Value (a : A)
| Raised (e : exn)
| OutOfFuel.

Arguments Value {A} a.
Arguments Raised {A} e.
Arguments OutOfFuel {A}.

Definition obind {A B} (o : outcome A) (k : A → outcome B) : outcome B :=
  match o with
  | Value a => k a
  | Raised e => Raised e
  | OutOfFuel => OutOfFuel
  end.

Notation "x ←! o ; k" := (obind o (fun x => k))
  (at level 20, o at level 100, k at level 200, only parsing).

(** ** Python list and integer primitives used by the script *)

Module Py.

(** [len(l)] *)
Definition len {A} (l : list A) : Z := Z.of_nat (length l).

(** [l[i] = x]: a negative index counts from the end, anything outside
    [-len(l) <= i < len(l)] raises [IndexError]. *)
Definition setitem {A} (l : list A) (i : Z) (x : A) : outcome (list A) :=
  if (0 <=? i) && (i <? len l) then Value (<[Z.to_nat i := x]> l)
  else if (- len l <=? i) && (i <? 0) then Value (<[Z.to_nat (len l + i) := x]> l)
  else Raised IndexError.

(** [l[i]] *)
Definition getitem {A} (l : list A) (i : Z) : outcome A :=
  let j := if i <? 0 then len l + i else i in
  if j <? 0 then Raised IndexError
  else match l !! Z.to_nat j with
       | Some x => Value x
       | None => Raised IndexError
       end.

(** [a % b] on integers: the result has the sign of [b], as [Z.modulo]. *)
Definition mod_ (a b : Z) : outcome Z :=
  if b =? 0 then Raised ZeroDivisionError else Value (a mod b).

(** [str(n)] for an integer: decimal digits, a leading [-] when negative. *)
Definition str (n : Z) : string :=
  match n with
  | Z0 => "0"
  | Zpos p => NilEmpty.string_of_uint (Pos.to_uint p)
  | Zneg p => String "-"%char (NilEmpty.string_of_uint (Pos.to_uint p))
  end.

End Py.

(** ** Replay memory (lines 65-85) *)

(** [Transition = namedtuple('Transition', ('state', 'action', 'next_state',
    'reward'))]; [next_state] is [None] for a final state. *)
Record Transition {tensor : Type} : Type := mkTransition {
  state : tensor;
  action : tensor;
  next_state : option tensor;
  reward : tensor
}.
Arguments Transition tensor : clear implicits.
Arguments mkTransition {tensor} _ _ _ _.

(** The three attributes of a [ReplayMemory] object.  A slot of [memory]
    holds [None] only between the [append] and the assignment of [push]. *)
Record ReplayMemory {tensor : Type} : Type := mkReplayMemory {
  capacity : Z;
  memory : list (option (Transition tensor));
  position : Z
}.
Arguments ReplayMemory tensor : clear implicits.
Arguments mkReplayMemory {tensor} _ _ _.

Section ReplayMemory.
Context {tensor : Type}.
Implicit Types (m : ReplayMemory tensor) (t : Transition tensor).

(** [ReplayMemory.__init__] *)
Definition init (c : Z) : ReplayMemory tensor :=
  {| capacity := c; memory := []; position := 0 |}.

(** [ReplayMemory.__len__] *)
Definition len m : Z := Py.len (memory m).

(** [ReplayMemory.push]:
<<
      if len(self.memory) < self.capacity:
          self.memory.append(None)
      self.memory[self.position] = Transition( *args )
      self.position = (self.position + 1) % self.capacity
>>
    The object is mutated statement by statement: when the assignment to
    the slot raises, the [append] has already happened, but no caller of
    the script observes the object after an exception. *)
Definition push m (s a : tensor) (ns : option tensor) (r : tensor)
  : outcome (ReplayMemory tensor) :=
  let mem1 := if Py.len (memory m) <? capacity m
              then memory m ++ [None] else memory m in
  mem2 ←! Py.setitem mem1 (position m) (Some (mkTransition s a ns r));
  pos' ←! Py.mod_ (position m + 1) (capacity m);
  Value {| capacity := capacity m; memory := mem2; position := pos' |}.

Definition push_transition m t : outcome (ReplayMemory tensor) :=
  push m (state t) (action t) (next_state t) (reward t).

(** A sequence of pushes, in order. *)
Fixpoint pushes m (ts : list (Transition tensor)) : outcome (ReplayMemory tensor) :=
  match ts with
  | [] => Value m
  | t :: ts' => m' ←! push_transition m t; pushes m' ts'
  end.

End ReplayMemory.

Section ReplayMemorySpec.
Context {tensor : Type}.
Implicit Types (m : ReplayMemory tensor) (t : Transition tensor).

(** The buffer read circularly, starting at the slot [position] points to. *)
Definition from_position m : list (option (Transition tensor)) :=
  drop (Z.to_nat (position m)) (memory m) ++ take (Z.to_nat (position m)) (memory m).

(** The last [c] transitions of a history of pushes, oldest first. *)
Definition retained (c : Z) (ts : list (Transition tensor)) : list (Transition tensor) :=
  drop (length ts - Z.to_nat c) ts.

(** What a memory of capacity [c] looks like after the pushes [ts]. *)
Definition ring_inv (c : Z) (ts : list (Transition tensor)) m : Prop :=
  capacity m = c ∧
  position m = Z.of_nat (length ts) mod c ∧
  length (memory m) = (length ts `min` Z.to_nat c)%nat ∧
  from_position m = Some <$> retained c ts.

End ReplayMemorySpec.

(** ** Floating-point numbers

    The script computes with Python floats (IEEE doubles) and calls
    [math.exp]; [random.sample] calls [math.log] and [math.ceil].  Their
    rounding is not modelled: the operations are an interface, and what is
    proved below holds for every implementation of it. *)
Class Floating : Type := {
  float : Type;
  (** a literal, given by its text in the source *)
  float_lit : string → float;
  (** the conversion of an integer operand in mixed arithmetic *)
  float_of_int : Z → float;
  fadd : float → float → float;
  fsub : float → float → float;
  fmul : float → float → float;
  fdiv : float → float → float;
  math_exp : float → float;
  (** [a > b] *)
  fgt : float → float → bool;
  (** [math.ceil(math.log(x, b))] on integers [x] and [b] *)
  ceil_log : Z → Z → Z
}.

(** ** Python's [random] module

    [ReplayMemory.sample] and [select_action] call [random.sample],
    [random.randrange] and [random.random].  The first two draw their
    randomness from [Random._randbelow] only, so they are written as
    decision trees over the results of [_randbelow]: a tree can be run
    against a generator, and it can be weighed with every result of
    [_randbelow(n)] counting for [1/n]. *)
Inductive Rand (A : Type) : Type :=
| Ret (a : A)
| Raise (e : exn)
| Spin
| RandBelow (n : nat) (k : nat → Rand A).

Arguments Ret {A} a.
Arguments Raise {A} e.
Arguments Spin {A}.
Arguments RandBelow {A} n k.

Fixpoint rbind {A B} (t : Rand A) (f : A → Rand B) : Rand B :=
  match t with
  | Ret a => f a
  | Raise e => Raise e
  | Spin => Spin
  | RandBelow n k => RandBelow n (fun j => rbind (k j) f)
  end.

Notation "x ←$ t ; k" := (rbind t (fun x => k))
  (at level 20, t at level 100, k at level 200, only parsing).

Module Random.
Section Random.
Context `{Floating}.

(** The loop of the first branch of [random.sample]:
<<
          pool = list(population)
          for i in range(k):
              j = randbelow(n-i)
              result[i] = pool[j]
              pool[j] = pool[n-i-1]
>>
    [m] is [n-i], [k] the number of rounds still to run. *)
Fixpoint sample_pool {A} (pool : list A) (m k : nat) : Rand (list A) :=
  match k with
  | O => Ret []
  | S k' =>
      RandBelow m (fun j =>
        x ←$ (match pool !! j with Some x => Ret x | None => Raise IndexError end);
        y ←$ (match Py.getitem pool (Z.of_nat m - 1) with
              | Value y => Ret y | _ => Raise IndexError end);
        r ←$ sample_pool (<[j := y]> pool) (m - 1) k';
        Ret (x :: r))
  end.

(** [j = randbelow(n); while j in selected: j = randbelow(n)], the loop
    cut off after [fuel] draws. *)
Fixpoint fresh_index (fuel n : nat) (selected : gset nat) : Rand nat :=
  match fuel with
  | O => Spin
  | S fuel' =>
      RandBelow n (fun j =>
        if decide (j ∈ selected) then fresh_index fuel' n selected else Ret j)
  end.

(** The loop of the second branch:
<<
          selected = set()
          for i in range(k):
              j = randbelow(n)
              while j in selected:
                  j = randbelow(n)
              selected_add(j)
              result[i] = population[j]
>>
 *)
Fixpoint sample_set {A} (fuel : nat) (population : list A) (n : nat)
    (selected : gset nat) (k : nat) : Rand (list A) :=
  match k with
  | O => Ret []
  | S k' =>
      j ←$ fresh_index fuel n selected;
      x ←$ (match population !! j with Some x => Ret x | None => Raise IndexError end);
      r ←$ sample_set fuel population n ({[j]} ∪ selected) k';
      Ret (x :: r)
  end.

(** [setsize]: 21, plus [4 ** _ceil(_log(k * 3, 4))] when [k > 5].  A
    negative exponent makes the power a fraction below 1 in Python and 0
    here; compared with the integer [n] the two agree. *)
Definition setsize (k : Z) : Z :=
  21 + (if 5 <? k then 4 ^ ceil_log (k * 3) 4 else 0).

(** [random.sample(population, k)] for a list [population]. *)
Definition sample {A} (fuel : nat) (population : list A) (k : Z) : Rand (list A) :=
  let n := Py.len population in
  if negb ((0 <=? k) && (k <=? n)) then Raise ValueError
  else if n <=? setsize k
  then sample_pool population (Z.to_nat n) (Z.to_nat k)
  else sample_set fuel population (Z.to_nat n) ∅ (Z.to_nat k).

(** [random.randrange(stop)] *)
Definition randrange (stop : Z) : Rand Z :=
  if 0 <? stop then RandBelow (Z.to_nat stop) (fun j => Ret (Z.of_nat j))
  else Raise ValueError.

End Random.
End Random.

(** A generator: [random.random()] and [_randbelow(n)] as functions of the
    generator's state.  [_randbelow(n)] answers below [n] when [n] is
    positive; nothing is said of [_randbelow(0)], which differs between
    versions of Python and which the script never reaches. *)
Class RandomSource `{Floating} : Type := {
  rng : Type;
  random_float : rng → float * rng;
  randbelow : nat → rng → nat * rng;
  randbelow_lt : ∀ n g, (0 < n)%nat → ((randbelow n g).1 < n)%nat
}.

Section Run.
Context `{RandomSource}.

(** A tree run against a generator. *)
Fixpoint run {A} (t : Rand A) (g : rng) : outcome A * rng :=
  match t with
  | Ret a => (Value a, g)
  | Raise e => (Raised e, g)
  | Spin => (OutOfFuel, g)
  | RandBelow n k => let '(j, g') := randbelow n g in run (k j) g'
  end.

(** The rejection loop of [random.sample] ends on the generator state
    [g]: some draw is not in [selected]. *)
Inductive accepts (n : nat) (selected : gset nat) : rng → Prop :=
| accepts_now g : (randbelow n g).1 ∉ selected → accepts n selected g
| accepts_later g :
    (randbelow n g).1 ∈ selected → accepts n selected (randbelow n g).2 →
    accepts n selected g.

(** The state of the generator after [d] calls of [_randbelow(n)]. *)
Fixpoint after_draws (n d : nat) (g : rng) : rng :=
  match d with
  | O => g
  | S d' => after_draws n d' (randbelow n g).2
  end.

(** The first [d] results of [_randbelow(n)] from the state [g]. *)
Fixpoint draws_from (n d : nat) (g : rng) : list nat :=
  match d with
  | O => []
  | S d' => (randbelow n g).1 :: draws_from n d' (randbelow n g).2
  end.

(** No rejection loop of a run of [sample] that starts in the state [g]
    runs for ever.  The loops of one call all draw below the same [n], the
    length of the population: at every state such draws lead to from [g],
    while an index below [n] is still free some further draw finds one.
    This speaks of one [n] and of the states met from [g] only, so a
    generator of finitely many states can have it. *)
Definition fair_from (n : nat) (g : rng) : Prop :=
  ∀ d (selected : gset nat), (size selected < n)%nat →
    accepts n selected (after_draws n d g).

End Run.

(** ** Weighing a tree *)

Definition Qc_of_nat (n : nat) : Qc := Qc_of_Z (Z.of_nat n).

Fixpoint sum_below (n : nat) (f : nat → Qc) : Qc :=
  match n with
  | O => 0%Qc
  | S n' => (sum_below n' f + f n')%Qc
  end.

(** The expected value of [f] on the result of [t], when every
    [_randbelow(n)] is uniform on [0, n) and independent of the others; a
    run that raises or is cut off counts for nothing. *)
Fixpoint expect {A} (t : Rand A) (f : A → Qc) : Qc :=
  match t with
  | Ret a => f a
  | Raise _ => 0%Qc
  | Spin => 0%Qc
  | RandBelow n k => (sum_below n (fun j => expect (k j) f) / Qc_of_nat n)%Qc
  end.

(** The probability that [t] returns a value in [E]. *)
Definition Pr {A} (t : Rand A) (E : A → Prop) `{∀ a, Decision (E a)} : Qc :=
  expect t (fun a => if decide (E a) then 1%Qc else 0%Qc).

(** What every run of a tree satisfies, whatever [_randbelow] answers
    within its range; [_randbelow(0)] is never asked. *)
Fixpoint ensures {A} (t : Rand A) (Q : outcome A → Prop) : Prop :=
  match t with
  | Ret a => Q (Value a)
  | Raise e => Q (Raised e)
  | Spin => Q OutOfFuel
  | RandBelow n k => (0 < n)%nat ∧ ∀ j, (j < n)%nat → ensures (k j) Q
  end.

(** ** The script *)

(** [ReplayMemory.sample]: [random.sample(self.memory, batch_size)].  It
    reads [memory] and writes nothing of the object. *)
Definition sample `{Floating} {tensor : Type} (fuel : nat)
    (m : ReplayMemory tensor) (batch_size : Z)
  : Rand (list (option (Transition tensor))) :=
  Random.sample fuel (memory m) batch_size.

(** What the script uses of PyTorch.  [params] is the content of a
    [state_dict()]: the weights of a [DQN] and the running statistics of
    its batch-normalisation layers. *)
Class Torch `{Floating} : Type := {
  tensor : Type;
  params : Type;
  opt_state : Type;
  (** [DQN.forward] up to [x.view(x.size(0), -1)], on a batch of one
      screen.  A network in training mode updates the statistics of its
      batch-normalisation layers on the way. *)
  features : params → tensor → list float * params;
  (** [self.head = nn.Linear(144, 2)]: two rows of weights, each with its
      bias. *)
  head : params → (list float * float) * (list float * float);
  (** [a*x + b*y] on screens *)
  blend : float → tensor → float → tensor → tensor;
  (** [torch.tensor([[a]], dtype=torch.long)] *)
  long_tensor : Z → tensor;
  (** [torch.tensor([reward])] *)
  reward_tensor : float → tensor;
  (** the body of [optimize_model] from the transposition of the batch to
      [optimizer.step()] *)
  train_step : params → params → opt_state → list (option (Transition tensor)) →
               outcome (params * opt_state)
}.

(** What the script uses of the Atari environment. *)
Class Gym `{Torch} : Type := {
  env : Type;
  env_reset : env → env;
  (** [env.step(a)]: reward, [done] and [info['ale.lives']] *)
  env_step : Z → env → (float * bool * Z) * env;
  get_screen : env → tensor
}.

(** What [plt.savefig] and [torch.save] write. *)
Inductive artifact `{Torch} : Type :=
| Figure (durations : list Z)
| StateDict (p : params).

(** The globals of the script, the generator of [random], the environment
    and the files written so far, as one state.  [env_calls] is the list of
    the actions passed to [env.step], oldest first. *)
Record World `{RandomSource} `{!Torch} `{!Gym} : Type := mkWorld {
  policy_net : params;
  target_net : params;
  optimizer : opt_state;
  replay : ReplayMemory tensor;
  steps_done : Z;
  episode_durations : list Z;
  generator : rng;
  environment : env;
  env_calls : list Z;
  files : list (string * artifact)
}.

Section Script.
Context `{RandomSource} `{!Torch} `{!Gym}.

Definition BATCH_SIZE : Z := 256.
Definition GAMMA : float := float_lit "0.999".
Definition EPS_START : float := float_lit "0.95".
Definition EPS_END : float := float_lit "0.05".
Definition EPS_DECAY : Z := 200000.
Definition TARGET_UPDATE : Z := 200.
Definition num_episodes : Z := 50000.

(** Lines 141-149 and 163, from freshly initialised weights [p0], a
    fresh optimizer, a generator and an environment. *)
Definition initial_world (p0 : params) (o0 : opt_state) (g : rng) (e : env) : World :=
  {| policy_net := p0; target_net := p0; optimizer := o0;
     replay := init 100000; steps_done := 0; episode_durations := [];
     generator := g; environment := e; env_calls := []; files := [] |}.

Definition with_nets (p tgt : params) (o : opt_state) (w : World) : World :=
  {| policy_net := p; target_net := tgt; optimizer := o;
     replay := replay w; steps_done := steps_done w;
     episode_durations := episode_durations w; generator := generator w;
     environment := environment w; env_calls := env_calls w; files := files w |}.

Definition with_replay (m : ReplayMemory tensor) (w : World) : World :=
  {| policy_net := policy_net w; target_net := target_net w; optimizer := optimizer w;
     replay := m; steps_done := steps_done w;
     episode_durations := episode_durations w; generator := generator w;
     environment := environment w; env_calls := env_calls w; files := files w |}.

Definition with_steps_done (n : Z) (w : World) : World :=
  {| policy_net := policy_net w; target_net := target_net w; optimizer := optimizer w;
     replay := replay w; steps_done := n;
     episode_durations := episode_durations w; generator := generator w;
     environment := environment w; env_calls := env_calls w; files := files w |}.

Definition with_episode_durations (d : list Z) (w : World) : World :=
  {| policy_net := policy_net w; target_net := target_net w; optimizer := optimizer w;
     replay := replay w; steps_done := steps_done w;
     episode_durations := d; generator := generator w;
     environment := environment w; env_calls := env_calls w; files := files w |}.

Definition with_generator (g : rng) (w : World) : World :=
  {| policy_net := policy_net w; target_net := target_net w; optimizer := optimizer w;
     replay := replay w; steps_done := steps_done w;
     episode_durations := episode_durations w; generator := g;
     environment := environment w; env_calls := env_calls w; files := files w |}.

Definition with_environment (e : env) (calls : list Z) (w : World) : World :=
  {| policy_net := policy_net w; target_net := target_net w; optimizer := optimizer w;
     replay := replay w; steps_done := steps_done w;
     episode_durations := episode_durations w; generator := generator w;
     environment := e; env_calls := calls; files := files w |}.

Definition with_files (fs : list (string * artifact)) (w : World) : World :=
  {| policy_net := policy_net w; target_net := target_net w; optimizer := optimizer w;
     replay := replay w; steps_done := steps_done w;
     episode_durations := episode_durations w; generator := generator w;
     environment := environment w; env_calls := env_calls w; files := fs |}.

(** [open(name, 'wb')] and a write: the file is added to the log. *)
Definition write_file (name : string) (a : artifact) (w : World) : World :=
  with_files (files w ++ [(name, a)]) w.

(** [env.step(a)] on the environment of the script. *)
Definition step_env (a : Z) (w : World) : (float * bool * Z) * World :=
  let '(r, e') := env_step a (environment w) in
  (r, with_environment e' (env_calls w ++ [a]) w).

(** *** [select_action] (lines 151-161) *)

(** [EPS_END + (EPS_START - EPS_END) * math.exp(-1. * steps_done / EPS_DECAY)] *)
Definition eps_threshold (steps : Z) : float :=
  fadd EPS_END
       (fmul (fsub EPS_START EPS_END)
             (math_exp (fdiv (fmul (float_lit "-1.") (float_of_int steps))
                             (float_of_int EPS_DECAY)))).

Definition dot (w x : list float) : float :=
  foldl fadd (float_lit "0.") (zip_with fmul w x).

(** [policy_net(state)]: the two outputs of the head on the features,
    and the network after the forward pass. *)
Definition forward (p : params) (x : tensor) : list float * params :=
  let '(feat, p') := features p x in
  let '((w0, b0), (w1, b1)) := head p in
  ([fadd (dot w0 feat) b0; fadd (dot w1 feat) b1], p').

(** [.max(1)[1]] on one row: the index of a greatest element, the first
    one here. *)
Fixpoint argmax_from (best : float) (best_i i : nat) (l : list float) : nat :=
  match l with
  | [] => best_i
  | v :: l' => if fgt v best then argmax_from v i (S i) l'
               else argmax_from best best_i (S i) l'
  end.

Definition argmax (l : list float) : outcome Z :=
  match l with
  | [] => Raised RuntimeError
  | v :: l' => Value (Z.of_nat (argmax_from v 0 1 l'))
  end.

(** The result is the one entry of the 1x1 tensor that [select_action]
    returns. *)
Definition select_action (w : World) (state : tensor) : outcome (Z * World) :=
  let '(sample, g1) := random_float (generator w) in
  let eps := eps_threshold (steps_done w) in
  let w1 := with_steps_done (steps_done w + 1) (with_generator g1 w) in
  if fgt sample eps then
    let '(q, p') := forward (policy_net w1) state in
    a ←! argmax q;
    Value (a, with_nets p' (target_net w1) (optimizer w1) w1)
  else
    let '(o, g2) := run (Random.randrange 2) g1 in
    a ←! o;
    Value (a, with_generator g2 w1).

(** *** [plot_durations] (lines 165-185): the figure is saved when the
    number of durations is a multiple of 10. *)
Definition plot_durations (w : World) : World :=
  let n := Py.len (episode_durations w) in
  if n mod 10 =? 0
  then write_file ("Duration_" +:+ Py.str n +:+ ".png") (Figure (episode_durations w)) w
  else w.

(** *** [optimize_model] (lines 191-226) *)
Definition optimize_model (fuel : nat) (w : World) : outcome World :=
  if len (replay w) <? BATCH_SIZE then Value w
  else
    let '(o, g') := run (sample fuel (replay w) BATCH_SIZE) (generator w) in
    transitions ←! o;
    r ←! train_step (policy_net w) (target_net w) (optimizer w) transitions;
    Value (with_nets r.1 (target_net w) r.2 (with_generator g' w)).

(** *** The training loop (lines 233-291) *)

(** Lines 244-252 of a round of [for t in count()]: the action is
    selected, shifted by 2 and played three times after a [env.step(1)].
    The result is the selected index, the summed reward, [Done] and
    [info['ale.lives']] of the last step. *)
Definition perform_action (w : World) (state : tensor)
  : outcome (Z * (float * bool * Z) * World) :=
  sel ←! select_action w state;
  let '(a, w) := sel in
  let Action := a + 2 in
  let '(_, w) := step_env 1 w in
  let '((reward1, _, _), w) := step_env Action w in
  let '((reward2, _, _), w) := step_env Action w in
  let '((reward3, Done, lives), w) := step_env Action w in
  Value (a, (fadd (fadd reward1 reward2) reward3, Done, lives), w).

(** One round of [for t in count()]; the result says whether the round
    ended the episode, and carries [state] and [current_screen] to the
    next round. *)
Definition time_step (fuel : nat) (t : Z) (state current_screen : tensor) (w : World)
  : outcome (World * option (tensor * tensor)) :=
  act ←! perform_action w state;
  let '(a, (reward, Done, lives), w) := act in
  let reward := reward_tensor reward in
  let done := if 4 <? lives then false else true in
  let done := if Done then true else done in
  let last_screen := current_screen in
  let current_screen := get_screen (environment w) in
  let next_state :=
    if negb done
    then Some (blend (float_lit "0.4") current_screen (float_lit "0.6") last_screen)
    else None in
  m ←! push (replay w) state (long_tensor a) next_state reward;
  let w := with_replay m w in
  w ←! optimize_model fuel w;
  match next_state with
  | Some s => Value (w, Some (s, current_screen))
  | None =>
      Value (plot_durations
               (with_episode_durations (episode_durations w ++ [t + 1]) w), None)
  end.

(** [for t in count()], cut off after [rounds] rounds. *)
Fixpoint episode_loop (rounds fuel : nat) (t : Z) (state current_screen : tensor)
    (w : World) : outcome World :=
  match rounds with
  | O => OutOfFuel
  | S rounds' =>
      r ←! time_step fuel t state current_screen w;
      match r.2 with
      | None => Value r.1
      | Some sc => episode_loop rounds' fuel (t + 1) sc.1 sc.2 r.1
      end
  end.

(** Lines 286-291: the end of episode [i_episode]. *)
Definition end_of_episode (i_episode : Z) (w : World) : World :=
  let w := if i_episode mod TARGET_UPDATE =? 0
           then with_nets (policy_net w) (policy_net w) (optimizer w) w
           else w in
  if i_episode mod 1000 =? 0
  then write_file ("target_net_" +:+ Py.str i_episode +:+ ".pth") (StateDict (target_net w))
         (write_file ("policy_net_" +:+ Py.str i_episode +:+ ".pth")
                     (StateDict (policy_net w)) w)
  else w.

(** The body of [for i_episode in range(num_episodes)]. *)
Definition episode (rounds fuel : nat) (i_episode : Z) (w : World) : outcome World :=
  let w := with_environment (env_reset (environment w)) (env_calls w) w in
  let '(_, w) := step_env 1 w in
  let last_screen := get_screen (environment w) in
  let current_screen := get_screen (environment w) in
  let state := blend (float_lit "0.4") current_screen (float_lit "0.6") last_screen in
  w ←! episode_loop rounds fuel 0 state current_screen w;
  Value (end_of_episode i_episode w).

Fixpoint training (rounds fuel : nat) (episodes : list Z) (w : World) : outcome World :=
  match episodes with
  | [] => Value w
  | i :: rest => w' ←! episode rounds fuel i w; training rounds fuel rest w'
  end.

(** The files a step writes: those of the log after it that were not in
    the log before it. *)
Definition written (before after : World) : list (string * artifact) :=
  drop (length (files before)) (files after).

End Script.

(** [f] applied to the result of a tree. *)
Definition rmap {A B} (f : A → B) (t : Rand A) : Rand B :=
  rbind t (fun a => Ret (f a)).

(** [sample] on the memory with every slot paired with its index: the
    batch together with the slot each of its elements was read from. *)
Definition sample_slots `{Floating} {tensor : Type} (fuel : nat)
    (m : ReplayMemory tensor) (batch_size : Z)
  : Rand (list (nat * option (Transition tensor))) :=
  Random.sample fuel (imap pair (memory m)) batch_size.

(** The weight of one set of [k] slots among the results of
    [Random.sample_pool] on [m] live slots: [k/m] times that of a set of
    [k-1] among [m-1], which makes [1 / binomial m k]. *)
Fixpoint pool_weight (m k : nat) : Qc :=
  match k with
  | O => 1%Qc
  | S k' => (Qc_of_nat k * pool_weight (m - 1) k' / Qc_of_nat m)%Qc
  end.

(** The weight with which [Random.fresh_index] returns one given free
    index, [s] indices out of [n] being taken: a draw hits it, or one of
    the [s] and then the remaining draws do. *)
Fixpoint accept_weight (fuel n s : nat) : Qc :=
  match fuel with
  | O => 0%Qc
  | S fuel' => ((1 + Qc_of_nat s * accept_weight fuel' n s) / Qc_of_nat n)%Qc
  end.

(** The weight of one set of [k] free slots among the results of
    [Random.sample_set], [s] slots being taken. *)
Fixpoint set_weight (fuel n s k : nat) : Qc :=
  match k with
  | O => 1%Qc
  | S k' => (accept_weight fuel n s * (Qc_of_nat k * set_weight fuel n (S s) k'))%Qc
  end.

Definition sample_weight `{Floating} (fuel n : nat) (k : Z) : Qc :=
  if Z.of_nat n <=? Random.setsize k then pool_weight n (Z.to_nat k)
  else set_weight fuel n 0 (Z.to_nat k).

(** [r] is a choice of [k] elements of [src] with [k] different keys. *)
Definition selection {A} (key : A → nat) (src : list A) (k : nat) (r : list A) : Prop :=
  length r = k ∧ NoDup (key <$> r) ∧ ∀ x, x ∈ r → x ∈ src.

(** ** What the proofs say of the script *)

Section ScriptSpec.
Context `{RandomSource} `{!Torch} `{!Gym}.

(** Two states that differ at most in the policy network, the generator
    and the step counter. *)
Definition same_but_selection (w w' : World) : Prop :=
  target_net w' = target_net w ∧ optimizer w' = optimizer w ∧
  replay w' = replay w ∧ episode_durations w' = episode_durations w ∧
  environment w' = environment w ∧ env_calls w' = env_calls w ∧
  files w' = files w.

(** The file [plot_durations] saves for the durations [ds], if any. *)
Definition plot_file (ds : list Z) : list (string * artifact) :=
  if decide (Py.len ds mod 10 = 0)
  then [("Duration_" +:+ Py.str (Py.len ds) +:+ ".png", Figure ds)]
  else [].

(** The files of a checkpoint at the end of episode [i], if it takes one. *)
Definition checkpoint_files (i : Z) (w : World) : list (string * artifact) :=
  if decide (i mod 1000 = 0)
  then [("policy_net_" +:+ Py.str i +:+ ".pth", StateDict (policy_net w));
        ("target_net_" +:+ Py.str i +:+ ".pth", StateDict (policy_net w))]
  else [].

End ScriptSpec.

(** The sum of a list of integers. *)
Definition sum_Z (l : list Z) : Z := foldr Z.add 0 l.

(** The names of the files episode [i] of a run leaves, in the order they
    are written: the plot after the [i+1]-th duration, then the
    checkpoint. *)
Definition episode_file_names (i : Z) : list string :=
  (if decide ((i + 1) mod 10 = 0)
   then ["Duration_" +:+ Py.str (i + 1) +:+ ".png"] else []) ++
  (if decide (i mod 1000 = 0)
   then ["policy_net_" +:+ Py.str i +:+ ".pth"; "target_net_" +:+ Py.str i +:+ ".pth"]
   else []).


(** ** Shapes in [DQN.forward] (lines 93-109) *)

Module Shape.

(** The size of one side after [nn.Conv2d] or [nn.MaxPool2d] with no
    padding and no dilation; a side shorter than the kernel is refused. *)
Definition window_out (kernel_size stride n : Z) : outcome Z :=
  if n <? kernel_size then Raised RuntimeError
  else Value ((n - kernel_size) / stride + 1).

(** One side through [DQN.forward]: [conv1], [pool], [conv2], [conv3]
    (batch normalisation and [relu] keep the shape). *)
Definition side_out (n : Z) : outcome Z :=
  a ←! window_out 4 2 n;
  b ←! window_out 2 2 a;
  c ←! window_out 4 2 b;
  window_out 4 2 c.

(** The length of [x.view(x.size(0), -1)] for a screen of [h] by [w]:
    the 16 channels of [conv3] times what is left of the two sides. *)
Definition flat_features (h w : Z) : outcome Z :=
  h' ←! side_out h;
  w' ←! side_out w;
  Value (16 * h' * w').

(** [self.head = nn.Linear(144, 2)] *)
Definition head_in_features : Z := 144.

End Shape.

(** ** An implementation of the interfaces, to run the model on

    Floats that carry no information, a generator that counts, networks
    and screens that are numbers, and an environment that loses a life at
    every step. *)
Module Toy.

#[local] Instance floating : Floating :=
  {| float := unit;
     float_lit := fun _ => tt;
     float_of_int := fun _ => tt;
     fadd := fun _ _ => tt; fsub := fun _ _ => tt;
     fmul := fun _ _ => tt; fdiv := fun _ _ => tt;
     math_exp := fun _ => tt;
     fgt := fun _ _ => false;
     ceil_log := fun x b => Z.log2_up x |}.

(** The generator whose [k]-th draw below [n] is [k mod n]. *)
#[local] Instance counter : RandomSource :=
  {| rng := nat;
     random_float := fun g => (tt, S g);
     randbelow := fun n g => ((g `mod` n)%nat, S g);
     randbelow_lt := fun n g Hn =>
       Nat.mod_upper_bound g n (proj2 (Nat.neq_0_lt_0 n) Hn) |}.

#[local] Instance torch : Torch :=
  {| tensor := nat; params := nat; opt_state := nat;
     features := fun p x => ([tt], S p);
     head := fun p => (([tt], tt), ([tt], tt));
     blend := fun _ x _ y => (x + y)%nat;
     long_tensor := Z.to_nat;
     reward_tensor := fun _ => 0%nat;
     train_step := fun p tgt o batch => Value (S p, S o) |}.

#[local] Instance gym : Gym :=
  {| env := nat;
     env_reset := fun _ => 5%nat;
     env_step := fun a e => ((tt, bool_decide (e = 0%nat), Z.of_nat (pred e)), pred e);
     get_screen := fun e => e |}.

Definition transitions (n : nat) : list (Transition nat) :=
  (fun i => mkTransition i 0%nat (Some (S i)) 1%nat) <$> seq 0 n.

(** A memory of capacity 4 after three pushes. *)
Definition memory3 : ReplayMemory nat :=
  {| capacity := 4;
     memory := Some <$> transitions 3;
     position := 3 |}.

Definition world0 : World := initial_world 0%nat 0%nat 0%nat 5%nat.

(** A generator of 64 states: a counter of six bits that goes round.  A
    draw below [n] is the counter halved, modulo [n], so every index comes
    twice in a row and the rejection loop of [random.sample] has to draw
    again. *)
Definition wheel_state : Type := bool * bool * bool * bool * bool * bool.

Definition wheel_value (g : wheel_state) : nat :=
  let '(b5, b4, b3, b2, b1, b0) := g in
  (Nat.b2n b0 + 2 * (Nat.b2n b1 + 2 * (Nat.b2n b2 + 2 * (Nat.b2n b3 +
     2 * (Nat.b2n b4 + 2 * Nat.b2n b5)))))%nat.

Definition wheel_of (v : nat) : wheel_state :=
  (Nat.testbit v 5, Nat.testbit v 4, Nat.testbit v 3,
   Nat.testbit v 2, Nat.testbit v 1, Nat.testbit v 0).

Definition wheel_next (g : wheel_state) : wheel_state := wheel_of (S (wheel_value g)).

Definition wheel : RandomSource :=
  {| rng := wheel_state;
     random_float := fun g => (tt, wheel_next g);
     randbelow := fun n g => (((wheel_value g / 2) `mod` n)%nat, wheel_next g);
     randbelow_lt := fun n g Hn =>
       Nat.mod_upper_bound (wheel_value g / 2) n (proj2 (Nat.neq_0_lt_0 n) Hn) |}.

Definition wheel_states : list wheel_state := wheel_of <$> seq 0 64.

(** A memory of capacity 30 after 22 pushes. *)
Definition memory22 : ReplayMemory nat :=
  {| capacity := 30;
     memory := Some <$> transitions 22;
     position := 22 |}.

(** An environment whose game takes longer: a life is lost at the ninth
    round of an episode. *)
Definition slow_gym : Gym :=
  {| env := nat;
     env_reset := fun _ => 40%nat;
     env_step := fun a e => ((tt, false, Z.of_nat (pred e)), pred e);
     get_screen := fun e => e |}.

Definition slow_world0 : @World floating counter torch slow_gym :=
  @initial_world floating counter torch slow_gym 0%nat 0%nat 0%nat 40%nat.

(** A replay memory that holds 256 transitions, and a state with it. *)
Definition memory256 : ReplayMemory nat :=
  {| capacity := 300;
     memory := (fun i => Some (mkTransition (i `mod` 4)%nat 0%nat None 1%nat)) <$> seq 0 256;
     position := 256 |}.

Definition world256 : World := with_replay memory256 world0.

(** What the model computes on these inputs: the value of a run, or the
    input itself should the run raise. *)
Definition value_or {A} (d : A) (o : outcome A) : A :=
  match o with Value a => a | _ => d end.

(** Two batches drawn from [memory3] by the counting generator. *)
Definition sample_all3 : list (option (Transition nat)) * nat :=
  Eval vm_compute in
    let res := run (sample 0 memory3 (len memory3)) 0%nat in (value_or [] res.1, res.2).

Definition sample_two3 : list (option (Transition nat)) * nat :=
  Eval vm_compute in
    let res := run (sample 1 memory3 2) 0%nat in (value_or [] res.1, res.2).

(** One optimisation step on the memory of 256 transitions. *)
Definition world256_optimized : World :=
  Eval vm_compute in value_or world256 (optimize_model 1 world256).


(** Episode 200 in the slow environment, and a run of three episodes. *)
Definition slow_world200 : @World floating counter torch slow_gym :=
  Eval vm_compute in
    value_or slow_world0 (@episode floating counter torch slow_gym 9 0 200 slow_world0).

Definition slow_run3 : @World floating counter torch slow_gym :=
  Eval vm_compute in
    value_or slow_world0 (@training floating counter torch slow_gym 9 0 [0; 1; 2] slow_world0).

(** A run of ten episodes of one round each. *)
Definition run10 : World :=
  Eval vm_compute in value_or world0 (training 1 0 (Z.of_nat <$> seq 0 10) world0).

End Toy.

(** * Theorems *)

Section ReplayMemoryProofs.
Context {tensor : Type}.
Implicit Types (m : ReplayMemory tensor) (t : Transition tensor).

Lemma setitem_in_range {A} (l : list A) (i : Z) (x : A) :
  0 <= i < Py.len l → Py.setitem l i x = Value (<[Z.to_nat i := x]> l).
Proof.
  intros [H0 H1]. unfold Py.setitem.
  apply Z.leb_le in H0. apply Z.ltb_lt in H1. by rewrite H0, H1.
Qed.

Lemma pushes_app m ts1 ts2 :
  pushes m (ts1 ++ ts2) = (m' ←! pushes m ts1; pushes m' ts2).
Proof.
  revert m. induction ts1 as [|t ts1 IH]; intros m; simpl; [done|].
  destruct (push_transition m t); simpl; auto.
Qed.

Lemma ring_inv_init c : ring_inv c [] (init (tensor:=tensor) c).
Proof. unfold ring_inv, from_position, retained. simpl. by rewrite Zmod_0_l. Qed.

Lemma ring_inv_position_range c ts m :
  0 < c → ring_inv c ts m → 0 <= position m < c.
Proof. intros Hc (_ & -> & _). by apply Z.mod_pos_bound. Qed.

(** One push from a state that satisfies the invariant. *)
Lemma push_ring_inv c ts m t :
  0 < c → ring_inv c ts m →
  ∃ m', push_transition m t = Value m' ∧ ring_inv c (ts ++ [t]) m' ∧
        capacity m' = c ∧
        position m' = (position m + 1) mod c ∧
        memory m' = <[Z.to_nat (position m) := Some t]>
                      (if len m <? c then memory m ++ [None] else memory m).
Proof.
  intros Hc (Hcap & Hpos & Hlen & Hord).
  assert (Hp : 0 <= position m < c) by (rewrite Hpos; by apply Z.mod_pos_bound).
  unfold push_transition, push, len. rewrite Hcap.
  set (n := length ts) in *. set (p := position m) in *.
  destruct t as [s a ns r]; simpl.
  unfold Py.mod_. destruct (Z.eqb_spec c 0) as [->|_]; [lia|].
  assert (Hpos' : (p + 1) mod c = Z.of_nat (length (ts ++ [mkTransition s a ns r])) mod c).
  { rewrite length_app; simpl. rewrite Nat2Z.inj_add. fold n.
    rewrite Hpos. by rewrite Zplus_mod_idemp_l. }
  destruct (Z.ltb_spec (Py.len (memory m)) c) as [Hlt|Hge]; unfold Py.len in *.
  - (* still filling: position = len *)
    assert (Hn : (n < Z.to_nat c)%nat) by lia.
    assert (Hlen' : length (memory m) = n) by lia.
    assert (Hpn : p = Z.of_nat n) by (rewrite Hpos; apply Z.mod_small; lia).
    rewrite setitem_in_range by (unfold Py.len; rewrite length_app; simpl; lia).
    simpl. eexists; split; [done|]. simpl.
    assert (Hmem : <[Z.to_nat p := Some (mkTransition s a ns r)]> (memory m ++ [None])
                   = memory m ++ [Some (mkTransition s a ns r)]).
    { rewrite Hpn, Nat2Z.id, <- Hlen'.
      rewrite insert_app_r_alt by lia. by rewrite Nat.sub_diag. }
    assert (Hall : memory m = Some <$> ts).
    { unfold from_position, retained in Hord. fold p in Hord.
      rewrite Hpn, Nat2Z.id, <- Hlen' in Hord.
      rewrite drop_all, take_ge in Hord by lia. simpl in Hord.
      rewrite Hord. f_equal. replace (length ts - Z.to_nat c)%nat with 0%nat by (fold n; lia).
      done. }
    split; [|done].
    unfold ring_inv, from_position, retained; simpl. rewrite Hmem.
    split; [done|]. split; [done|]. split.
    { rewrite !length_app; simpl. fold n. lia. }
    rewrite length_app; simpl. fold n.
    replace (n + 1 - Z.to_nat c)%nat with 0%nat by lia.
    rewrite drop_0, fmap_app, <- Hall. simpl.
    destruct (decide (Z.of_nat n + 1 = c)) as [Heq|Hne].
    + rewrite Hpn, Heq, Z_mod_same_full. simpl. by rewrite app_nil_r.
    + rewrite Hpn, Z.mod_small by lia.
      rewrite drop_ge, take_ge by (rewrite length_app; simpl; lia).
      done.
  - (* full: the slot at position is overwritten *)
    assert (Hn : (Z.to_nat c <= n)%nat) by lia.
    assert (Hlen' : length (memory m) = Z.to_nat c) by lia.
    rewrite setitem_in_range by (unfold Py.len; lia).
    simpl. eexists; split; [done|]. simpl. split; [|done].
    unfold ring_inv, from_position, retained in *; simpl. fold p in Hord.
    split; [done|]. split; [done|]. split.
    { rewrite length_insert, length_app; simpl. fold n. lia. }
    rewrite length_app; simpl. fold n.
    set (x := Some (mkTransition s a ns r)).
    set (P := Z.to_nat p) in *.
    assert (HP : (P < length (memory m))%nat) by lia.
    replace (n + 1 - Z.to_nat c)%nat with ((n - Z.to_nat c) + 1)%nat by lia.
    rewrite drop_app_le by (fold n; lia).
    fold n in Hord. rewrite <- drop_drop, fmap_app, fmap_drop, <- Hord. simpl.
    destruct (drop P (memory m)) as [|y rest] eqn:Hdrop.
    { apply (f_equal length) in Hdrop. rewrite length_drop in Hdrop. simpl in Hdrop. lia. }
    simpl. rewrite drop_0.
    assert (Hrest : drop (S P) (memory m) = rest).
    { replace (S P) with (P + 1)%nat by lia. by rewrite <- drop_drop, Hdrop. }
    destruct (decide (p + 1 = c)) as [Heq|Hne].
    + rewrite Heq, Z_mod_same_full, Z2Nat.inj_0, drop_0, take_0, app_nil_r.
      assert (rest = []) as ->.
      { rewrite <- Hrest. apply drop_ge. lia. }
      simpl.
      rewrite <- (take_drop P (memory m)) at 1.
      rewrite Hdrop. rewrite insert_app_r_alt by (rewrite length_take; lia).
      rewrite length_take. replace (P - P `min` length (memory m))%nat with 0%nat by lia.
      done.
    + rewrite Z.mod_small by lia.
      replace (Z.to_nat (p + 1)) with (S P) by lia.
      rewrite drop_insert_lt by lia. rewrite Hrest.
      rewrite take_insert_lt by lia.
      rewrite (take_S_r _ _ y).
      2:{ rewrite <- (take_drop P (memory m)) at 1. rewrite Hdrop.
          rewrite lookup_app_r by (rewrite length_take; lia).
          rewrite length_take. by replace (P - P `min` length (memory m))%nat with 0%nat by lia. }
      rewrite insert_app_r_alt by (rewrite length_take; lia).
      rewrite length_take. replace (P - P `min` length (memory m))%nat with 0%nat by lia.
      simpl. by rewrite <- app_assoc.
Qed.

Lemma pushes_ring_inv c ts :
  0 < c → ∃ m, pushes (init c) ts = Value m ∧ ring_inv c ts m.
Proof.
  intros Hc. induction ts as [|t ts IH] using rev_ind.
  - exists (init c). split; [done|apply ring_inv_init].
  - destruct IH as (m & Hrun & Hinv).
    destruct (push_ring_inv c ts m t Hc Hinv) as (m' & Hpush & Hinv' & _).
    exists m'. split; [|done].
    rewrite pushes_app, Hrun. simpl. by rewrite Hpush.
Qed.

Lemma ring_inv_len c ts m :
  0 < c → ring_inv c ts m → len m = Z.min (Z.of_nat (length ts)) c.
Proof. intros Hc (_ & _ & Hlen & _). unfold len, Py.len. lia. Qed.

(** C1. A memory created with capacity [c > 0] never reports a length
    above [c], whatever was pushed: the pushes all succeed, a push into a
    memory that is not yet full makes it one slot longer, and a push into
    a full memory leaves its length alone. *)
Theorem replay_len_never_exceeds_capacity (c : Z) (ts : list (Transition tensor)) t :
  0 < c →
  ∃ m m', pushes (init c) ts = Value m ∧ push_transition m t = Value m' ∧
          len m <= c ∧ len m' <= c ∧
          (len m < c → len m' = len m + 1) ∧
          (len m = c → len m' = len m).
Proof.
  intros Hc.
  destruct (pushes_ring_inv c ts Hc) as (m & Hrun & Hinv).
  destruct (push_ring_inv c ts m t Hc Hinv) as (m' & Hpush & Hinv' & _).
  exists m, m'. split; [done|]. split; [done|].
  rewrite (ring_inv_len c ts m Hc Hinv), (ring_inv_len c _ m' Hc Hinv').
  rewrite length_app; simpl. lia.
Qed.

(** C2. Once [c] or more transitions have been pushed the memory is full,
    and the next push writes the slot [position] points to and moves
    [position] to [(position + 1) mod c].  Read circularly from
    [position], the buffer is the last [c] transitions pushed, oldest
    first, so the slot written held the oldest of them; afterwards the
    buffer holds the others followed by the new one.  Nothing but [push]
    writes [memory] or [position]: reading the buffer does not change the
    order of eviction. *)
Theorem push_evicts_oldest (c : Z) (ts : list (Transition tensor)) t :
  0 < c → c <= Z.of_nat (length ts) →
  ∃ m m' oldest others,
    pushes (init c) ts = Value m ∧ len m = c ∧
    push_transition m t = Value m' ∧ len m' = c ∧
    memory m' = <[Z.to_nat (position m) := Some t]> (memory m) ∧
    position m' = (position m + 1) mod c ∧
    retained c ts = oldest :: others ∧
    memory m !! Z.to_nat (position m) = Some (Some oldest) ∧
    from_position m = Some <$> (oldest :: others) ∧
    from_position m' = Some <$> (others ++ [t]).
Proof.
  intros Hc Hfull.
  destruct (pushes_ring_inv c ts Hc) as (m & Hrun & Hinv).
  destruct (push_ring_inv c ts m t Hc Hinv) as (m' & Hpush & Hinv' & _ & Hpos' & Hmem').
  pose proof (ring_inv_len c ts m Hc Hinv) as Hlen.
  pose proof (ring_inv_len c _ m' Hc Hinv') as Hlen'.
  pose proof (ring_inv_position_range c ts m Hc Hinv) as Hp.
  rewrite length_app in Hlen'; simpl in Hlen'.
  assert (Hm : len m = c) by lia.
  rewrite Hm, Z.ltb_irrefl in Hmem'.
  destruct (retained c ts) as [|oldest others] eqn:Hret.
  { apply (f_equal length) in Hret. unfold retained in Hret.
    rewrite length_drop in Hret. simpl in Hret. lia. }
  exists m, m', oldest, others.
  destruct Hinv as (_ & _ & _ & Hord). destruct Hinv' as (_ & _ & _ & Hord').
  rewrite Hret in Hord.
  repeat split; try done; try lia.
  - unfold from_position in Hord.
    assert (Hlt : (Z.to_nat (position m) < length (memory m))%nat)
      by (unfold len, Py.len in Hm; lia).
    destruct (lookup_lt_is_Some_2 _ _ Hlt) as [y Hy].
    rewrite (drop_S _ _ _ Hy) in Hord. simpl in Hord.
    injection Hord as -> _. done.
  - rewrite Hord'. f_equal. unfold retained in *.
    rewrite length_app; simpl.
    replace (length ts + 1 - Z.to_nat c)%nat with ((length ts - Z.to_nat c) + 1)%nat by lia.
    rewrite drop_app_le by lia.
    by rewrite <- drop_drop, Hret.
Qed.

End ReplayMemoryProofs.

(** C1 at capacity 2, with three transitions pushed and a fourth to come. *)
Lemma replay_len_never_exceeds_capacity_witness :
  0 < 2 ∧
  ∃ m m', pushes (init 2) [mkTransition 1%nat 0%nat (Some 2%nat) 0%nat;
                           mkTransition 2%nat 1%nat (Some 3%nat) 1%nat;
                           mkTransition 3%nat 0%nat None 0%nat] = Value m ∧
          push_transition m (mkTransition 4%nat 1%nat None 2%nat) = Value m' ∧
          len m <= 2 ∧ len m' <= 2 ∧
          (len m < 2 → len m' = len m + 1) ∧
          (len m = 2 → len m' = len m).
Proof.
  split; [lia|]. apply (replay_len_never_exceeds_capacity 2). lia.
Defined.

(** [Toy.memory3] is the memory of capacity 4 after three pushes. *)
Example pushes_memory3 : pushes (init 4) (Toy.transitions 3) = Value Toy.memory3.
Proof. reflexivity. Qed.

(** C2 at capacity 2, with three transitions pushed and a fourth to come. *)
Lemma push_evicts_oldest_witness :
  0 < 2 ∧ 2 <= Z.of_nat 3 ∧
  ∃ m m' oldest others,
    pushes (init 2) [mkTransition 1%nat 0%nat (Some 2%nat) 0%nat;
                     mkTransition 2%nat 1%nat (Some 3%nat) 1%nat;
                     mkTransition 3%nat 0%nat None 0%nat] = Value m ∧ len m = 2 ∧
    push_transition m (mkTransition 4%nat 1%nat None 2%nat) = Value m' ∧ len m' = 2 ∧
    memory m' = <[Z.to_nat (position m) := Some (mkTransition 4%nat 1%nat None 2%nat)]> (memory m) ∧
    position m' = (position m + 1) mod 2 ∧
    retained 2 [mkTransition 1%nat 0%nat (Some 2%nat) 0%nat;
                mkTransition 2%nat 1%nat (Some 3%nat) 1%nat;
                mkTransition 3%nat 0%nat None 0%nat] = oldest :: others ∧
    memory m !! Z.to_nat (position m) = Some (Some oldest) ∧
    from_position m = Some <$> (oldest :: others) ∧
    from_position m' = Some <$> (others ++ [mkTransition 4%nat 1%nat None 2%nat]).
Proof.
  split; [lia|]. split; [simpl; lia|].
  apply (push_evicts_oldest 2); simpl; lia.
Defined.

(** ** Trees: runs, bounds on every run, weights *)

Section RandProofs.
Context `{RandomSource}.

Lemma ensures_mono {A} (t : Rand A) (Q Q' : outcome A → Prop) :
  (∀ o, Q o → Q' o) → ensures t Q → ensures t Q'.
Proof.
  intros HQ. induction t as [a|e| |n k IH]; simpl; auto.
  intros [Hn Hk]. split; [done|]. intros j Hj. apply IH; auto.
Qed.

Lemma ensures_bind {A B} (t : Rand A) (f : A → Rand B) (Q : outcome B → Prop) :
  ensures t (fun o => match o with
                      | Value a => ensures (f a) Q
                      | Raised e => Q (Raised e)
                      | OutOfFuel => Q OutOfFuel
                      end) →
  ensures (rbind t f) Q.
Proof.
  induction t as [a|e| |n k IH]; simpl; auto.
  intros [Hn Hk]. split; [done|]. intros j Hj. apply IH; auto.
Qed.

Lemma ensures_rmap {A B} (g : A → B) (t : Rand A) (Q : outcome B → Prop) :
  ensures t (fun o => match o with
                      | Value a => Q (Value (g a))
                      | Raised e => Q (Raised e)
                      | OutOfFuel => Q OutOfFuel
                      end) →
  ensures (rmap g t) Q.
Proof. intros Ht. apply ensures_bind. revert Ht. apply ensures_mono. by intros []. Qed.

(** What holds of every run holds of the run against any generator. *)
Lemma run_ensures {A} (t : Rand A) (Q : outcome A → Prop) (g : rng) :
  ensures t Q → Q (run t g).1.
Proof.
  revert g. induction t as [a|e| |n k IH]; simpl; auto.
  intros g [Hn Hk]. pose proof (randbelow_lt n g Hn) as Hlt.
  destruct (randbelow n g) as [j g']. simpl in *. apply IH; auto.
Qed.

Lemma run_rbind {A B} (t : Rand A) (f : A → Rand B) (g : rng) :
  run (rbind t f) g =
    match run t g with
    | (Value a, g') => run (f a) g'
    | (Raised e, g') => (Raised e, g')
    | (OutOfFuel, g') => (OutOfFuel, g')
    end.
Proof.
  revert g. induction t as [a|e| |n k IH]; intros g; simpl; auto.
  destruct (randbelow n g) as [j g']. apply IH.
Qed.

Lemma rbind_rbind {A B C} (t : Rand A) (f : A → Rand B) (h : B → Rand C) :
  rbind (rbind t f) h = rbind t (fun a => rbind (f a) h).
Proof.
  induction t as [a|e| |n k IH]; simpl; auto.
  f_equal. extensionality j. apply IH.
Qed.

End RandProofs.

(** ** [random.sample]: what every run returns *)

Section SampleProofs.
Context `{Floating}.

Lemma getitem_nat {A} (l : list A) (i : nat) (x : A) :
  l !! i = Some x → Py.getitem l (Z.of_nat i) = Value x.
Proof.
  intros Hx. unfold Py.getitem.
  destruct (Z.ltb_spec (Z.of_nat i) 0) as [?|_]; [lia|].
  destruct (Z.ltb_spec (Z.of_nat i) 0) as [?|_]; [lia|].
  by rewrite Nat2Z.id, Hx.
Qed.

(** One round of the first branch: the slot drawn leaves the live part of
    the pool and the last live slot takes its place. *)
Lemma pool_round_perm {A} (pool : list A) (m j : nat) (x y : A) :
  (j < m)%nat → pool !! j = Some x → pool !! (m - 1)%nat = Some y →
  take m pool ≡ₚ x :: take (m - 1) (<[j := y]> pool).
Proof.
  intros Hj Hx Hy. destruct m as [|m']; [lia|].
  replace (S m' - 1)%nat with m' in * by lia.
  rewrite (take_S_r _ _ _ Hy).
  destruct (decide (j = m')) as [->|Hne].
  - assert (x = y) as -> by congruence.
    rewrite take_insert_ge by lia.
    by rewrite <- Permutation_cons_append.
  - rewrite take_insert_lt by lia.
    assert (Hxt : take m' pool !! j = Some x) by (rewrite lookup_take_lt by lia; done).
    rewrite <- Permutation_cons_append.
    rewrite (delete_Permutation _ _ _ Hxt) at 1.
    assert (Hyt : <[j := y]> (take m' pool) !! j = Some y).
    { apply list_lookup_insert_eq. by eapply lookup_lt_Some. }
    rewrite (delete_Permutation _ _ _ Hyt).
    rewrite !delete_take_drop, take_insert_ge, drop_insert_lt by lia.
    apply perm_swap.
Qed.

Lemma sample_pool_round {A} (pool : list A) (m k' : nat) :
  (0 < m ≤ length pool)%nat →
  ∀ j, (j < m)%nat → ∃ x y,
    pool !! j = Some x ∧ pool !! (m - 1)%nat = Some y ∧
    (x ←$ (match pool !! j with Some x => Ret x | None => Raise IndexError end);
     y ←$ (match Py.getitem pool (Z.of_nat m - 1) with
           | Value y => Ret y | _ => Raise IndexError end);
     r ←$ Random.sample_pool (<[j := y]> pool) (m - 1) k';
     Ret (x :: r)) =
    rmap (cons x) (Random.sample_pool (<[j := y]> pool) (m - 1) k').
Proof.
  intros Hm j Hj.
  destruct (lookup_lt_is_Some_2 pool j) as [x Hx]; [lia|].
  destruct (lookup_lt_is_Some_2 pool (m - 1)) as [y Hy]; [lia|].
  exists x, y. split; [done|]. split; [done|].
  rewrite Hx. simpl.
  replace (Z.of_nat m - 1) with (Z.of_nat (m - 1)) by lia.
  by rewrite (getitem_nat _ _ _ Hy).
Qed.

Lemma sample_pool_ensures {A} (key : A → nat) (k : nat) (pool : list A) (m : nat) :
  (k ≤ m ≤ length pool)%nat → NoDup (key <$> take m pool) →
  ensures (Random.sample_pool pool m k)
    (fun o => match o with
              | Value r => selection key (take m pool) k r
              | _ => False
              end).
Proof.
  revert pool m. induction k as [|k' IH]; intros pool m Hm Hnd.
  - simpl. repeat split; [constructor|]. intros x Hx. by apply elem_of_nil in Hx.
  - simpl. split; [lia|]. intros j Hj.
    destruct (sample_pool_round pool m k' ltac:(lia) j Hj) as (x & y & Hx & Hy & ->).
    pose proof (pool_round_perm pool m j x y Hj Hx Hy) as Hperm.
    assert (Hnd' : NoDup (key x :: (key <$> take (m - 1) (<[j := y]> pool)))).
    { rewrite <- fmap_cons. by rewrite <- Hperm. }
    apply NoDup_cons in Hnd' as [Hfresh Hnd'].
    apply ensures_rmap.
    eapply ensures_mono; [|apply (IH (<[j := y]> pool) (m - 1)%nat); [rewrite length_insert; lia|done]].
    intros [r| |]; simpl; try done.
    intros (Hlen & Hndr & Hsub). repeat split.
    + simpl. lia.
    + apply NoDup_cons. split; [|done].
      intros Hin. apply Hfresh. apply list_elem_of_fmap in Hin as (x' & -> & Hx').
      apply list_elem_of_fmap. exists x'. split; [done|]. by apply Hsub.
    + intros x' Hx'. rewrite Hperm. apply elem_of_cons in Hx' as [->|Hx'].
      * apply elem_of_cons; by left.
      * apply elem_of_cons; right. by apply Hsub.
Qed.

Lemma fresh_index_ensures (fuel n : nat) (sel : gset nat) :
  (0 < n)%nat →
  ensures (Random.fresh_index fuel n sel)
    (fun o => match o with
              | Value j => (j < n)%nat ∧ j ∉ sel
              | Raised _ => False
              | OutOfFuel => True
              end).
Proof.
  intros Hn. induction fuel as [|fuel IH]; simpl; [done|].
  split; [done|]. intros j Hj. by destruct (decide (j ∈ sel)).
Qed.

Lemma sample_set_ensures {A} (key : A → nat) (fuel : nat) (pop : list A)
    (sel : gset nat) (k : nat) :
  (k = 0 ∨ 0 < length pop)%nat →
  (∀ j x, pop !! j = Some x → key x = j) →
  ensures (Random.sample_set fuel pop (length pop) sel k)
    (fun o => match o with
              | Value r => selection key pop k r ∧ ∀ x, x ∈ r → key x ∉ sel
              | Raised _ => False
              | OutOfFuel => True
              end).
Proof.
  intros Hrounds Hkey. revert sel Hrounds. induction k as [|k' IH]; intros sel Hrounds.
  - simpl. split; [|by intros x Hx%elem_of_nil].
    repeat split; [constructor|]. by intros x Hx%elem_of_nil.
  - assert (Hn : (0 < length pop)%nat) by lia.
    simpl. apply ensures_bind.
    eapply ensures_mono; [|by apply fresh_index_ensures].
    intros [j| |]; simpl; try done. intros [Hj Hfree].
    destruct (lookup_lt_is_Some_2 pop j Hj) as [x Hx]. rewrite Hx. simpl.
    apply ensures_bind.
    eapply ensures_mono; [|apply (IH ({[j]} ∪ sel)); by right].
    intros [r| |]; simpl; try done.
    intros ((Hlen & Hnd & Hsub) & Hsel).
    pose proof (Hkey j x Hx) as Hkx.
    repeat split.
    + simpl. lia.
    + apply NoDup_cons. split; [|done].
      intros Hin. apply list_elem_of_fmap in Hin as (x' & Hk' & Hx').
      apply (Hsel x' Hx'). rewrite <- Hk', Hkx. set_solver.
    + intros x' [->|Hx']%elem_of_cons; [|by apply Hsub].
      by eapply list_elem_of_lookup_2.
    + intros x' [->|Hx']%elem_of_cons.
      * by rewrite Hkx.
      * specialize (Hsel x' Hx'). set_solver.
Qed.

Lemma sample_out_of_range {A} (fuel : nat) (pop : list A) (k : Z) :
  ¬ (0 <= k <= Py.len pop) → Random.sample fuel pop k = Raise ValueError.
Proof.
  intros Hk. unfold Random.sample.
  destruct (Z.leb_spec 0 k), (Z.leb_spec k (Py.len pop)); simpl; try done; lia.
Qed.

Lemma sample_ensures {A} (key : A → nat) (fuel : nat) (pop : list A) (k : Z) :
  0 <= k <= Py.len pop →
  (∀ j x, pop !! j = Some x → key x = j) →
  ensures (Random.sample fuel pop k)
    (fun o => match o with
              | Value r => selection key pop (Z.to_nat k) r
              | Raised _ => False
              | OutOfFuel => True
              end).
Proof.
  intros Hk Hkey. unfold Random.sample, Py.len in *.
  destruct (Z.leb_spec 0 k); [|lia].
  destruct (Z.leb_spec k (Z.of_nat (length pop))); [|lia]. simpl.
  rewrite Nat2Z.id.
  destruct (Z.of_nat (length pop) <=? Random.setsize k).
  - eapply ensures_mono; [|apply (sample_pool_ensures key)].
    + intros [r| |]; try done. by rewrite firstn_all.
    + lia.
    + rewrite firstn_all. apply NoDup_alt. intros i j y Hi Hj.
      apply list_lookup_fmap_Some in Hi as (xi & -> & Hxi).
      apply list_lookup_fmap_Some in Hj as (xj & Heq & Hxj).
      pose proof (Hkey i xi Hxi). pose proof (Hkey j xj Hxj). congruence.
  - eapply ensures_mono; [|apply (sample_set_ensures key); [lia|done]].
    intros [r| |]; try done. by intros [? _].
Qed.

Lemma getitem_fmap {A B} (f : A → B) (l : list A) (i : Z) :
  Py.getitem (f <$> l) i =
    match Py.getitem l i with
    | Value x => Value (f x)
    | Raised e => Raised e
    | OutOfFuel => OutOfFuel
    end.
Proof.
  unfold Py.getitem, Py.len. rewrite length_fmap.
  destruct (_ <? 0); [done|].
  rewrite list_lookup_fmap. by destruct (l !! _).
Qed.

(** The algorithms of [random.sample] move the elements of the population
    around and never look inside them. *)
Lemma sample_pool_fmap {A B} (f : A → B) (pool : list A) (m k : nat) :
  Random.sample_pool (f <$> pool) m k = rmap (fmap f) (Random.sample_pool pool m k).
Proof.
  revert pool m. induction k as [|k' IH]; intros pool m; [done|].
  simpl. unfold rmap. simpl. f_equal. extensionality j.
  rewrite list_lookup_fmap, getitem_fmap.
  destruct (pool !! j) as [x|]; simpl; [|done].
  destruct (Py.getitem pool (Z.of_nat m - 1)) as [y|e|]; simpl; try done.
  rewrite <- list_fmap_insert, IH. unfold rmap. by rewrite !rbind_rbind.
Qed.

Lemma sample_set_fmap {A B} (f : A → B) (fuel : nat) (pop : list A) (n : nat)
    (sel : gset nat) (k : nat) :
  Random.sample_set fuel (f <$> pop) n sel k =
    rmap (fmap f) (Random.sample_set fuel pop n sel k).
Proof.
  revert sel. induction k as [|k' IH]; intros sel; [done|].
  simpl. unfold rmap. rewrite rbind_rbind. f_equal. extensionality j.
  rewrite list_lookup_fmap.
  destruct (pop !! j) as [x|]; simpl; [|done].
  rewrite IH. unfold rmap. by rewrite !rbind_rbind.
Qed.

Lemma sample_fmap {A B} (f : A → B) (fuel : nat) (pop : list A) (k : Z) :
  Random.sample fuel (f <$> pop) k = rmap (fmap f) (Random.sample fuel pop k).
Proof.
  unfold Random.sample, Py.len. rewrite length_fmap.
  destruct (negb _); [done|].
  destruct (_ <=? _); [apply sample_pool_fmap|apply sample_set_fmap].
Qed.

Lemma snd_imap_pair {A} (l : list A) : (imap pair l).*2 = l.
Proof.
  apply list_eq. intros i.
  rewrite list_lookup_fmap, list_lookup_imap. by destruct (l !! i).
Qed.

Lemma fst_imap_pair {A} (l : list A) (j : nat) (x : nat * A) :
  imap pair l !! j = Some x → x.1 = j ∧ l !! j = Some x.2.
Proof.
  rewrite list_lookup_imap. destruct (l !! j) as [a|]; simpl; [|done].
  by intros [= <-].
Qed.

(** The batch is the sample of the slots, the slot numbers dropped. *)
Lemma sample_slots_batch {tensor : Type} (fuel : nat) (m : ReplayMemory tensor) (bs : Z) :
  sample fuel m bs = rmap (fmap snd) (sample_slots fuel m bs).
Proof.
  unfold sample, sample_slots. rewrite <- sample_fmap. by rewrite snd_imap_pair.
Qed.

End SampleProofs.

Section SampleRuns.
Context `{RandomSource}.

Lemma run_rmap {A B} (f : A → B) (t : Rand A) (g : rng) :
  run (rmap f t) g =
    match run t g with
    | (Value a, g') => (Value (f a), g')
    | (Raised e, g') => (Raised e, g')
    | (OutOfFuel, g') => (OutOfFuel, g')
    end.
Proof. unfold rmap. rewrite run_rbind. by destruct (run t g) as [[a|e|] g']. Qed.

Lemma after_draws_S (n d : nat) (g : rng) :
  after_draws n (S d) g = (randbelow n (after_draws n d g)).2.
Proof. revert g. induction d as [|d IH]; intros g; [done|]. simpl in *. by rewrite IH. Qed.

Lemma after_draws_add (n d d' : nat) (g : rng) :
  after_draws n d' (after_draws n d g) = after_draws n (d + d') g.
Proof. revert g. induction d as [|d IH]; intros g; [done|]. simpl. by rewrite IH. Qed.

Lemma fair_from_after (n d : nat) (g : rng) :
  fair_from n g → fair_from n (after_draws n d g).
Proof. intros Hfair d' sel Hsize. rewrite after_draws_add. by apply Hfair. Qed.

(** A draw that is free, some draws ahead, ends the rejection loop. *)
Lemma accepts_within (n : nat) (sel : gset nat) (d : nat) (g : rng) :
  (randbelow n (after_draws n d g)).1 ∉ sel → accepts n sel g.
Proof.
  revert g. induction d as [|d IH]; intros g Hfree.
  - by apply accepts_now.
  - destruct (decide ((randbelow n g).1 ∈ sel)) as [Htaken|Hnow].
    + apply accepts_later; [done|]. by apply IH.
    + by apply accepts_now.
Qed.

Lemma free_index_exists (n : nat) (sel : gset nat) :
  (size sel < n)%nat → ∃ j, (j < n)%nat ∧ j ∉ sel.
Proof.
  revert sel. induction n as [|n IH]; intros sel Hsize; [lia|].
  destruct (decide (n ∈ sel)) as [Hin|Hout]; [|exists n; split; [lia|done]].
  assert (Hne : size sel ≠ 0%nat) by (intros Hz%size_empty_inv; set_solver).
  destruct (IH (sel ∖ {[n]})) as (j & Hj & Hfree).
  - rewrite size_difference by set_solver. rewrite size_singleton. lia.
  - exists j. split; [lia|]. intros Hjs. apply Hfree.
    apply elem_of_difference. split; [done|]. rewrite elem_of_singleton. lia.
Qed.

(** A generator that, from every state met from [g], draws every index
    below [n] sooner or later is fair from [g]. *)
Lemma fair_from_draws_all (n : nat) (g : rng) :
  (∀ d j, (j < n)%nat → ∃ d', (randbelow n (after_draws n (d + d') g)).1 = j) →
  fair_from n g.
Proof.
  intros Hall d sel Hsize.
  destruct (free_index_exists n sel Hsize) as (j & Hj & Hfree).
  destruct (Hall d j Hj) as (d' & Hd').
  apply (accepts_within n sel d'). rewrite after_draws_add. by rewrite Hd'.
Qed.

Lemma run_fresh_index_accepts (n : nat) (sel : gset nat) (g : rng) :
  (0 < n)%nat → accepts n sel g →
  ∃ fuel0 j d, (j < n)%nat ∧ (j ∉ sel) ∧
    (∀ fuel, (fuel0 ≤ fuel)%nat →
       run (Random.fresh_index fuel n sel) g = (Value j, after_draws n d g)).
Proof.
  intros Hn Hacc. induction Hacc as [g Hfree|g Htaken _ (fuel0 & j & d & Hj & Hfree & IH)].
  - exists 1%nat, (randbelow n g).1, 1%nat.
    split; [by apply randbelow_lt|]. split; [done|].
    intros [|fuel] Hfuel; [lia|]. simpl.
    destruct (randbelow n g) as [j g']. simpl in *. by rewrite decide_False.
  - exists (S fuel0), j, (S d). split; [done|]. split; [done|].
    intros [|fuel] Hfuel; [lia|]. simpl.
    destruct (randbelow n g) as [j1 g1]. simpl in *.
    rewrite decide_True by done. apply IH. lia.
Qed.

Lemma run_sample_set_fair {A} (pop : list A) (k : nat) (sel : gset nat) (g : rng) :
  fair_from (length pop) g → (size sel + k ≤ length pop)%nat →
  ∃ fuel0, ∀ fuel, (fuel0 ≤ fuel)%nat →
    ∃ r g', run (Random.sample_set fuel pop (length pop) sel k) g = (Value r, g').
Proof.
  revert sel g. induction k as [|k' IH]; intros sel g Hfair Hsize.
  - exists 0%nat. intros fuel _. by exists [], g.
  - destruct (run_fresh_index_accepts (length pop) sel g) as (f1 & j & d & Hj & Hfree & Hrun1);
      [lia|apply (Hfair 0%nat); lia|].
    destruct (lookup_lt_is_Some_2 pop j Hj) as [x Hx].
    destruct (IH ({[j]} ∪ sel) (after_draws (length pop) d g)) as (f2 & Hrun2).
    { by apply fair_from_after. }
    { rewrite size_union by set_solver. rewrite size_singleton. lia. }
    exists (Nat.max f1 f2). intros fuel Hfuel.
    destruct (Hrun2 fuel) as (r & g' & Hr); [lia|].
    exists (x :: r), g'. simpl.
    rewrite run_rbind, (Hrun1 fuel) by lia. rewrite Hx. simpl.
    by rewrite run_rbind, Hr.
Qed.

(** The first branch of [random.sample] has no loop of its own: it returns
    on every generator. *)
Lemma run_sample_pool {A} (key : A → nat) (fuel : nat) (pop : list A) (k : Z) (g : rng) :
  0 <= k <= Py.len pop →
  (∀ j x, pop !! j = Some x → key x = j) →
  Py.len pop <= Random.setsize k →
  ∃ r g', run (Random.sample fuel pop k) g = (Value r, g').
Proof.
  intros Hk Hkey Hpool.
  pose proof (run_ensures _ _ g (sample_ensures key fuel pop k Hk Hkey)) as Hrun.
  destruct (run (Random.sample fuel pop k) g) as [[r|e|] g'] eqn:Hr; simpl in Hrun.
  - by exists r, g'.
  - done.
  - exfalso. revert Hr. unfold Random.sample.
    destruct (negb _); [done|].
    destruct (Z.leb_spec (Py.len pop) (Random.setsize k)); [|lia].
    intros Hr.
    assert (Hnd : NoDup (key <$> take (Z.to_nat (Py.len pop)) pop)).
    { unfold Py.len. rewrite Nat2Z.id, firstn_all. apply NoDup_alt. intros i j y Hi Hj.
      apply list_lookup_fmap_Some in Hi as (xi & -> & Hxi).
      apply list_lookup_fmap_Some in Hj as (xj & Heq & Hxj).
      pose proof (Hkey i xi Hxi). pose proof (Hkey j xj Hxj). congruence. }
    pose proof (run_ensures _ _ g
      (sample_pool_ensures key (Z.to_nat k) pop (Z.to_nat (Py.len pop))
         ltac:(unfold Py.len in *; lia) Hnd)) as Hrun'.
    by rewrite Hr in Hrun'.
Qed.

(** The second branch returns when the generator is fair from the state
    the run starts in. *)
Lemma run_sample_fair {A} (key : A → nat) (pop : list A) (k : Z) (g : rng) :
  fair_from (length pop) g → 0 <= k <= Py.len pop →
  (∀ j x, pop !! j = Some x → key x = j) →
  ∃ fuel0, ∀ fuel, (fuel0 ≤ fuel)%nat →
    ∃ r g', run (Random.sample fuel pop k) g = (Value r, g').
Proof.
  intros Hfair Hk Hkey.
  destruct (decide (Py.len pop <= Random.setsize k)) as [Hpool|Hset].
  - exists 0%nat. intros fuel _. by apply (run_sample_pool key).
  - unfold Random.sample.
    destruct (Z.leb_spec 0 k); [|lia].
    destruct (Z.leb_spec k (Py.len pop)); [|lia]. simpl.
    destruct (Z.leb_spec (Py.len pop) (Random.setsize k)); [lia|].
    unfold Py.len. rewrite Nat2Z.id.
    apply run_sample_set_fair; [done|]. rewrite size_empty. unfold Py.len in *. lia.
Qed.

End SampleRuns.

(** ** [random.sample]: the weight of a set of slots *)

Section Weights.
Local Open Scope Qc_scope.

Lemma Qc_of_nat_S (n : nat) : Qc_of_nat (S n) = Qc_of_nat n + 1.
Proof.
  unfold Qc_of_nat. rewrite Nat2Z.inj_succ, <- Z.add_1_r.
  by rewrite Z2Qc_inj_add, Z2Qc_inj_1.
Qed.

Lemma Qc_of_nat_0 : Qc_of_nat 0 = 0.
Proof. exact Z2Qc_inj_0. Qed.

Lemma Qc_of_nat_nonneg (n : nat) : 0 ≤ Qc_of_nat n.
Proof.
  unfold Qc_of_nat. rewrite <- Z2Qc_inj_0.
  apply (proj1 (Z2Qc_inj_le 0 (Z.of_nat n))). lia.
Qed.

Lemma Qc_of_nat_pos (n : nat) : (0 < n)%nat → 0 < Qc_of_nat n.
Proof.
  intros Hn. unfold Qc_of_nat. rewrite <- Z2Qc_inj_0.
  apply (proj1 (Z2Qc_inj_lt 0 (Z.of_nat n))). lia.
Qed.

Lemma sum_below_ext (n : nat) (f g : nat → Qc) :
  (∀ j, (j < n)%nat → f j = g j) → sum_below n f = sum_below n g.
Proof.
  induction n as [|n IH]; intros Hfg; simpl; [done|].
  rewrite IH, Hfg by (intros; try apply Hfg; lia). done.
Qed.

Lemma sum_below_add (n : nat) (f g : nat → Qc) :
  sum_below n (fun j => f j + g j) = sum_below n f + sum_below n g.
Proof. induction n as [|n IH]; simpl; [ring|]. rewrite IH. ring. Qed.

Lemma sum_below_zero (n : nat) : sum_below n (fun _ => 0) = 0.
Proof. induction n as [|n IH]; simpl; [done|]. rewrite IH. ring. Qed.

(** Counting: when [e] lists [m] distinct slots and all of [S] is among
    them, [e j] falls in [S] for [size S] values of [j]. *)
Lemma sum_below_count (e : nat → nat) (m : nat) (S : gset nat) (c : Qc) :
  (∀ i j, (i < m)%nat → (j < m)%nat → e i = e j → i = j) →
  (∀ x, x ∈ S → ∃ j, (j < m)%nat ∧ e j = x) →
  sum_below m (fun j => if decide (e j ∈ S) then c else 0) = Qc_of_nat (size S) * c.
Proof.
  revert S. induction m as [|m IH]; intros S Hinj Hsur.
  - simpl. assert (S = ∅) as ->.
    { apply set_eq. intros x. split; [|set_solver]. intros Hx.
      destruct (Hsur x Hx) as (j & Hj & _). lia. }
    rewrite size_empty, Qc_of_nat_0. ring.
  - simpl. destruct (decide (e m ∈ S)) as [Hin|Hout].
    + rewrite (sum_below_ext m _ (fun j => if decide (e j ∈ S ∖ {[e m]}) then c else 0)).
      2:{ intros j Hj. destruct (decide (e j ∈ S)) as [H1|H1];
            destruct (decide (e j ∈ S ∖ {[e m]})) as [H2|H2]; try done.
          - exfalso. apply H2. apply elem_of_difference. split; [done|].
            intros ->%elem_of_singleton%Hinj; lia.
          - set_solver. }
      rewrite IH.
      * assert (Hsz : size S = Datatypes.S (size (S ∖ {[e m]}))).
        { rewrite size_difference by set_solver. rewrite size_singleton.
          assert (size S ≠ 0%nat); [|lia].
          intros Hz%size_empty_inv. set_solver. }
        rewrite Hsz, Qc_of_nat_S. ring.
      * intros i j Hi Hj. apply Hinj; lia.
      * intros x [Hx Hne]%elem_of_difference.
        destruct (Hsur x Hx) as (j & Hj & Hej). exists j. split; [|done].
        destruct (decide (j = m)) as [->|]; [|lia]. set_solver.
    + rewrite IH.
      * ring.
      * intros i j Hi Hj. apply Hinj; lia.
      * intros x Hx. destruct (Hsur x Hx) as (j & Hj & Hej). exists j. split; [|done].
        destruct (decide (j = m)) as [->|]; [|lia]. congruence.
Qed.

Lemma expect_rbind {A B} (t : Rand A) (f : A → Rand B) (h : B → Qc) :
  expect (rbind t f) h = expect t (fun a => expect (f a) h).
Proof.
  induction t as [a|e| |n k IH]; simpl; try done.
  f_equal. apply sum_below_ext. intros j _. apply IH.
Qed.

Lemma expect_rmap {A B} (f : A → B) (t : Rand A) (h : B → Qc) :
  expect (rmap f t) h = expect t (fun a => h (f a)).
Proof. unfold rmap. by rewrite expect_rbind. Qed.

Lemma expect_zero {A} (t : Rand A) : expect t (fun _ => 0) = 0.
Proof.
  induction t as [a|e| |n k IH]; simpl; try done.
  rewrite (sum_below_ext n _ (fun _ => 0)) by (intros; apply IH).
  rewrite sum_below_zero. unfold Qcdiv. ring.
Qed.

(** Two functions that agree on every value a tree can return have the
    same expected value. *)
Lemma expect_ext {A} (t : Rand A) (h h' : A → Qc) (Q : outcome A → Prop) :
  ensures t Q → (∀ a, Q (Value a) → h a = h' a) → expect t h = expect t h'.
Proof.
  intros Ht Hh. induction t as [a|e| |n k IH]; simpl in *; auto.
  destruct Ht as [_ Ht]. f_equal. apply sum_below_ext. intros j Hj. apply IH. by apply Ht.
Qed.

Lemma Pr_ret {A} (a : A) (E : A → Prop) `{∀ a, Decision (E a)} :
  Pr (Ret a) E = if decide (E a) then 1 else 0.
Proof. done. Qed.

Lemma Pr_never {A} (t : Rand A) (E : A → Prop) `{∀ a, Decision (E a)} :
  (∀ a, ¬ E a) → Pr t E = 0.
Proof.
  intros HE. unfold Pr. transitivity (expect t (fun _ => 0)); [|apply expect_zero].
  f_equal. extensionality a. rewrite decide_False; [done|apply HE].
Qed.

Lemma Pr_ext {A} (t : Rand A) (E E' : A → Prop) (Q : outcome A → Prop)
    `{∀ a, Decision (E a)} `{∀ a, Decision (E' a)} :
  ensures t Q → (∀ a, Q (Value a) → E a ↔ E' a) → Pr t E = Pr t E'.
Proof.
  intros Ht HE. unfold Pr. apply (expect_ext t _ _ Q Ht). intros a Ha.
  destruct (decide (E a)), (decide (E' a)); try done; exfalso; naive_solver.
Qed.

Lemma keys_cons_eq {A} (key : A → nat) (x : A) (r : list A) (S : gset nat) :
  key x ∈ S → key x ∉ key <$> r →
  list_to_set (key <$> x :: r) = S ↔ list_to_set (key <$> r) = S ∖ {[key x]}.
Proof.
  intros Hin Hfresh. rewrite fmap_cons, list_to_set_cons.
  assert (key x ∉ (list_to_set (key <$> r) : gset nat)) by (by rewrite elem_of_list_to_set).
  split; intros Heq.
  - rewrite <- Heq. set_solver.
  - rewrite Heq. apply set_eq. intros y. rewrite elem_of_union, elem_of_difference, elem_of_singleton.
    destruct (decide (y = key x)) as [->|]; naive_solver.
Qed.

(** The first branch: every set of [k] live slots has the weight
    [pool_weight m k]. *)
Lemma sample_pool_weight {A} (key : A → nat) (k : nat) (pool : list A) (m : nat)
    (S : gset nat) :
  (k ≤ m ≤ length pool)%nat → NoDup (key <$> take m pool) →
  size S = k → (∀ s, s ∈ S → ∃ x, x ∈ take m pool ∧ key x = s) →
  Pr (Random.sample_pool pool m k) (fun r => list_to_set (key <$> r) = S) = pool_weight m k.
Proof.
  revert pool m S. induction k as [|k' IH]; intros pool m S Hm Hnd Hsize Hsub.
  - simpl. rewrite Pr_ret. apply size_empty_inv in Hsize.
    rewrite decide_True; [done|]. simpl. by apply leibniz_equiv in Hsize.
  - unfold Pr. simpl.
    set (c := pool_weight (m - 1) k').
    set (e := fun j => default 0%nat (key <$> pool !! j)).
    rewrite (sum_below_ext m _ (fun j => if decide (e j ∈ S) then c else 0)).
    + rewrite sum_below_count.
      * by rewrite Hsize.
      * intros i j Hi Hj Heq.
        destruct (lookup_lt_is_Some_2 pool i) as [xi Hxi]; [lia|].
        destruct (lookup_lt_is_Some_2 pool j) as [xj Hxj]; [lia|].
        unfold e in Heq. rewrite Hxi, Hxj in Heq. simpl in Heq.
        eapply (NoDup_lookup _ i j (key xi) Hnd).
        -- by rewrite list_lookup_fmap, lookup_take_lt, Hxi by done.
        -- by rewrite list_lookup_fmap, lookup_take_lt, Hxj, Heq by done.
      * intros s Hs. destruct (Hsub s Hs) as (x & Hx & <-).
        apply list_elem_of_lookup in Hx as [j Hj].
        apply lookup_take_Some in Hj as [Hj Hjm].
        exists j. split; [done|]. unfold e. by rewrite Hj.
    + intros j Hj.
      destruct (sample_pool_round pool m k' ltac:(lia) j Hj) as (x & y & Hx & Hy & ->).
      pose proof (pool_round_perm pool m j x y Hj Hx Hy) as Hperm.
      assert (Hnd' : NoDup (key x :: (key <$> take (m - 1) (<[j := y]> pool)))).
      { rewrite <- fmap_cons. by rewrite <- Hperm. }
      apply NoDup_cons in Hnd' as [Hfresh Hnd'].
      assert (Hm' : (k' ≤ m - 1 ≤ length (<[j := y]> pool))%nat) by (rewrite length_insert; lia).
      unfold e. rewrite Hx. simpl. rewrite expect_rmap.
      destruct (decide (key x ∈ S)) as [Hin|Hout].
      * change (Pr (Random.sample_pool (<[j:=y]> pool) (m - 1) k')
                  (fun r => list_to_set (key <$> x :: r) = S) = c).
        rewrite (Pr_ext _ _ (fun r => list_to_set (key <$> r) = S ∖ {[key x]}) _
                   (sample_pool_ensures key k' _ _ Hm' Hnd')).
        -- apply IH; [done|done| |].
           ++ rewrite size_difference by set_solver. rewrite size_singleton. lia.
           ++ intros s [Hs Hne]%elem_of_difference.
              destruct (Hsub s Hs) as (x' & Hx' & <-).
              rewrite Hperm in Hx'. apply elem_of_cons in Hx' as [->|Hx']; [set_solver|].
              by exists x'.
        -- intros r (_ & _ & Hr). apply keys_cons_eq; [done|].
           intros (x' & Hk & Hx')%list_elem_of_fmap. apply Hfresh.
           apply list_elem_of_fmap. exists x'. split; [done|]. by apply Hr.
      * change (Pr (Random.sample_pool (<[j:=y]> pool) (m - 1) k')
                  (fun r => list_to_set (key <$> x :: r) = S) = 0).
        apply Pr_never. intros r Heq. apply Hout. rewrite <- Heq.
        rewrite fmap_cons, list_to_set_cons. set_solver.
Qed.

(** The rejection loop followed by [K]: each free index is reached with
    the weight [accept_weight], whatever the index. *)
Lemma fresh_index_expect {B} (fuel n : nat) (sel : gset nat) (K : nat → Rand B) (h : B → Qc) :
  (∀ j, j ∈ sel → (j < n)%nat) →
  expect (rbind (Random.fresh_index fuel n sel) K) h =
    accept_weight fuel n (size sel) *
      sum_below n (fun j => if decide (j ∈ sel) then 0 else expect (K j) h).
Proof.
  intros Hsel. induction fuel as [|fuel IH]; simpl; [ring|].
  set (T := sum_below n (fun j => if decide (j ∈ sel) then 0 else expect (K j) h)) in *.
  set (q := accept_weight fuel n (size sel)) in *.
  rewrite (sum_below_ext n _
             (fun j => (if decide (id j ∈ sel) then q * T else 0) +
                       (if decide (j ∈ sel) then 0 else expect (K j) h))).
  - rewrite sum_below_add, sum_below_count.
    + fold T. unfold Qcdiv. ring.
    + by intros i j _ _.
    + intros x Hx. exists x. split; [by apply Hsel|done].
  - intros j _. unfold id. destruct (decide (j ∈ sel)); simpl.
    + rewrite IH. ring.
    + ring.
Qed.

(** The second branch: every set of [k] free slots has the weight
    [set_weight]. *)
Lemma sample_set_weight {A} (key : A → nat) (fuel : nat) (pop : list A)
    (k : nat) (sel S : gset nat) :
  (∀ j x, pop !! j = Some x → key x = j) →
  (∀ j, j ∈ sel → (j < length pop)%nat) →
  size S = k → (∀ s, s ∈ S → (s < length pop)%nat ∧ s ∉ sel) →
  Pr (Random.sample_set fuel pop (length pop) sel k)
     (fun r => list_to_set (key <$> r) = S) =
    set_weight fuel (length pop) (size sel) k.
Proof.
  intros Hkey. revert sel S. induction k as [|k' IH]; intros sel S Hsel Hsize Hsub.
  - simpl. rewrite Pr_ret. apply size_empty_inv in Hsize.
    rewrite decide_True; [done|]. simpl. by apply leibniz_equiv in Hsize.
  - unfold Pr. simpl. rewrite fresh_index_expect by done.
    set (c := set_weight fuel (length pop) (Datatypes.S (size sel)) k').
    rewrite (sum_below_ext _ _ (fun j => if decide (id j ∈ S) then c else 0)).
    + rewrite sum_below_count.
      * by rewrite Hsize.
      * by intros i j _ _.
      * intros s Hs. exists s. split; [by apply Hsub|done].
    + intros j Hj. unfold id.
      destruct (decide (j ∈ sel)) as [Htaken|Hfree].
      { rewrite decide_False; [done|]. intros Hs. by apply (Hsub j Hs). }
      destruct (lookup_lt_is_Some_2 pop j Hj) as [x Hx]. rewrite Hx. simpl.
      pose proof (Hkey j x Hx) as Hkx.
      fold (rmap (cons x) (Random.sample_set fuel pop (length pop) ({[j]} ∪ sel) k')).
      rewrite expect_rmap.
      destruct (decide (j ∈ S)) as [Hin|Hout].
      * change (Pr (Random.sample_set fuel pop (length pop) ({[j]} ∪ sel) k')
                  (fun r => list_to_set (key <$> x :: r) = S) = c).
        rewrite (Pr_ext _ _ (fun r => list_to_set (key <$> r) = S ∖ {[key x]}) _
                   (sample_set_ensures key fuel pop ({[j]} ∪ sel) k'
                      (or_intror (Nat.lt_lt_0 _ _ Hj)) Hkey)).
        -- rewrite IH.
           ++ unfold c. f_equal. rewrite size_union by set_solver.
              by rewrite size_singleton.
           ++ intros i [->%elem_of_singleton|Hi]%elem_of_union; [done|by apply Hsel].
           ++ rewrite size_difference by set_solver. rewrite size_singleton. lia.
           ++ intros s [Hs Hne]%elem_of_difference. destruct (Hsub s Hs). set_solver.
        -- intros r (_ & Hr). apply keys_cons_eq; [by rewrite Hkx|].
           intros (x' & Hk & Hx')%list_elem_of_fmap.
           apply (Hr x' Hx'). rewrite <- Hk, Hkx. set_solver.
      * change (Pr (Random.sample_set fuel pop (length pop) ({[j]} ∪ sel) k')
                  (fun r => list_to_set (key <$> x :: r) = S) = 0).
        apply Pr_never. intros r Heq. apply Hout. rewrite <- Heq.
        rewrite fmap_cons, list_to_set_cons, Hkx. set_solver.
Qed.

Lemma Qcdiv_pos (x y : Qc) : 0 < x → 0 < y → 0 < x / y.
Proof. intros Hx Hy. unfold Qcdiv. apply Qcmult_pos_pos; [done|by apply Qcinv_pos]. Qed.

Lemma pool_weight_pos (m k : nat) : (k ≤ m)%nat → 0 < pool_weight m k.
Proof.
  revert m. induction k as [|k' IH]; intros m Hk; simpl; [done|].
  apply Qcdiv_pos; [|apply Qc_of_nat_pos; lia].
  apply Qcmult_pos_pos; [apply Qc_of_nat_pos; lia|apply IH; lia].
Qed.

Lemma accept_weight_nonneg (fuel n s : nat) : 0 ≤ accept_weight fuel n s.
Proof.
  induction fuel as [|fuel IH]; simpl; [done|].
  destruct n as [|n].
  - rewrite Qc_of_nat_0. unfold Qcdiv. change (/ 0) with 0. by rewrite Qcmult_0_r.
  - apply Qclt_le_weak, Qcdiv_pos; [|apply Qc_of_nat_pos; lia].
    apply Qcplus_pos_nonneg; [done|].
    apply Qcmult_nonneg_nonneg; [apply Qc_of_nat_nonneg|done].
Qed.

Lemma accept_weight_pos (fuel n s : nat) :
  (0 < fuel)%nat → (0 < n)%nat → 0 < accept_weight fuel n s.
Proof.
  intros Hfuel Hn. destruct fuel as [|fuel]; [lia|]. simpl.
  apply Qcdiv_pos; [|by apply Qc_of_nat_pos].
  apply Qcplus_pos_nonneg; [done|].
  apply Qcmult_nonneg_nonneg; [apply Qc_of_nat_nonneg|apply accept_weight_nonneg].
Qed.

Lemma set_weight_pos (fuel n s k : nat) :
  (0 < fuel)%nat → (0 < n)%nat → 0 < set_weight fuel n s k.
Proof.
  intros Hfuel Hn. revert s. induction k as [|k' IH]; intros s; simpl; [done|].
  apply Qcmult_pos_pos; [by apply accept_weight_pos|].
  apply Qcmult_pos_pos; [apply Qc_of_nat_pos; lia|apply IH].
Qed.

Section SampleWeight.
Context `{Floating}.

(** [random.sample]: every set of [k] slots of the population has the
    same weight, [sample_weight]. *)
Lemma sample_weight_spec {A} (key : A → nat) (fuel : nat) (pop : list A) (k : Z)
    (S : gset nat) :
  (0 <= k <= Py.len pop)%Z →
  (∀ j x, pop !! j = Some x → key x = j) →
  Z.of_nat (size S) = k → (∀ s, s ∈ S → (s < length pop)%nat) →
  Pr (Random.sample fuel pop k) (fun r => list_to_set (key <$> r) = S) =
    sample_weight fuel (length pop) k.
Proof.
  intros Hk Hkey Hsize Hsub. unfold Random.sample, sample_weight, Py.len in *.
  destruct (Z.leb_spec 0 k); [|lia].
  destruct (Z.leb_spec k (Z.of_nat (length pop))); [|lia]. simpl.
  rewrite Nat2Z.id.
  destruct (Z.of_nat (length pop) <=? Random.setsize k).
  - apply sample_pool_weight; [lia| |lia|].
    + rewrite firstn_all. apply NoDup_alt. intros i j y Hi Hj.
      apply list_lookup_fmap_Some in Hi as (xi & -> & Hxi).
      apply list_lookup_fmap_Some in Hj as (xj & Heq & Hxj).
      pose proof (Hkey i xi Hxi). pose proof (Hkey j xj Hxj). congruence.
    + intros s Hs. rewrite firstn_all.
      destruct (lookup_lt_is_Some_2 pop s (Hsub s Hs)) as [x Hx].
      exists x. split; [by eapply list_elem_of_lookup_2|by apply Hkey].
  - rewrite <- (size_empty (C:=gset nat)).
    apply sample_set_weight; [done|set_solver|lia|].
    intros s Hs. split; [by apply Hsub|set_solver].
Qed.

Lemma sample_weight_pos (fuel n : nat) (k : Z) :
  (0 < fuel)%nat → (0 <= k <= Z.of_nat n)%Z → 0 < sample_weight fuel n k.
Proof.
  intros Hfuel Hk. unfold sample_weight.
  destruct (_ <=? _)%Z; [apply pool_weight_pos; lia|].
  destruct (decide (k = 0%Z)) as [->|]; [done|].
  apply set_weight_pos; [done|lia].
Qed.

End SampleWeight.
End Weights.

(** ** [ReplayMemory.sample] *)

Section ReplaySampleProofs.
Context `{RandomSource} {tensor : Type}.
Implicit Types (m : ReplayMemory tensor).

Lemma slots_key m (j : nat) (x : nat * option (Transition tensor)) :
  imap pair (memory m) !! j = Some x → x.1 = j.
Proof. intros Hx. by apply fst_imap_pair in Hx as [? _]. Qed.

Lemma len_slots m : Py.len (imap pair (memory m)) = len m.
Proof. unfold len, Py.len. by rewrite length_imap. Qed.

Lemma selection_slots m (k : nat) (r : list (nat * option (Transition tensor))) :
  selection fst (imap pair (memory m)) k r →
  length r.*2 = k ∧ NoDup r.*1 ∧
  Forall2 (fun i x => memory m !! i = Some x) r.*1 r.*2.
Proof.
  intros (Hlen & Hnd & Hsub). split; [by rewrite length_fmap|]. split; [done|].
  clear Hlen Hnd. induction r as [|[i x] r IH]; simpl; [constructor|].
  constructor.
  - assert (Hin : (i, x) ∈ imap pair (memory m)) by (apply Hsub; left).
    apply list_elem_of_lookup in Hin as [j Hj].
    by apply fst_imap_pair in Hj as [<- ?].
  - apply IH. intros y Hy. apply Hsub. by right.
Qed.

(** What a run of [sample] with a batch size in range returns. *)
Lemma run_sample_in_range (fuel : nat) m (batch_size : Z) (g : rng) :
  0 <= batch_size <= len m →
  match (run (sample fuel m batch_size) g).1 with
  | Value batch =>
      Py.len batch = batch_size ∧
      ∃ slots : list nat, NoDup slots ∧
        Forall2 (fun i x => memory m !! i = Some x) slots batch
  | Raised _ => False
  | OutOfFuel => True
  end.
Proof.
  intros Hbs. rewrite sample_slots_batch.
  apply (run_ensures _ (fun o => match o with
                                 | Value batch =>
                                     Py.len batch = batch_size ∧
                                     ∃ slots : list nat, NoDup slots ∧
                                       Forall2 (fun i x => memory m !! i = Some x) slots batch
                                 | Raised _ => False
                                 | OutOfFuel => True
                                 end)).
  apply ensures_rmap.
  eapply ensures_mono; [|apply (sample_ensures fst fuel (imap pair (memory m)) batch_size)].
  - intros [r| |]; try done. intros Hsel.
    apply selection_slots in Hsel as (Hlen & Hnd & Hall).
    split; [unfold Py.len; rewrite Hlen; lia|]. by exists r.*1.
  - by rewrite len_slots.
  - apply slots_key.
Qed.

Lemma run_sample_out_of_range (fuel : nat) m (batch_size : Z) (g : rng) :
  ¬ (0 <= batch_size <= len m) →
  run (sample fuel m batch_size) g = (Raised ValueError, g).
Proof.
  intros Hbs. unfold sample. by rewrite sample_out_of_range.
Qed.

(** [sample] returns on every generator when [random.sample] takes its
    first branch. *)
Lemma sample_returns_pool (fuel : nat) m (batch_size : Z) (g : rng) :
  0 <= batch_size <= len m → len m <= Random.setsize batch_size →
  ∃ batch g', run (sample fuel m batch_size) g = (Value batch, g').
Proof.
  intros Hbs Hpool.
  destruct (run_sample_pool fst fuel (imap pair (memory m)) batch_size g)
    as (r & g' & Hr); [by rewrite len_slots|apply slots_key|by rewrite len_slots|].
  exists r.*2, g'. rewrite sample_slots_batch, run_rmap.
  unfold sample_slots. by rewrite Hr.
Qed.

(** [sample] returns on a generator that is fair from the state of the
    call, once the model is given fuel enough. *)
Lemma sample_returns_fair m (batch_size : Z) (g : rng) :
  0 <= batch_size <= len m → fair_from (length (memory m)) g →
  ∃ fuel0, ∀ fuel, (fuel0 ≤ fuel)%nat →
    ∃ batch g', run (sample fuel m batch_size) g = (Value batch, g').
Proof.
  intros Hbs Hfair.
  destruct (run_sample_fair fst (imap pair (memory m)) batch_size g)
    as (fuel0 & Hrun); [by rewrite length_imap|by rewrite len_slots|apply slots_key|].
  exists fuel0. intros fuel Hfuel.
  destruct (Hrun fuel Hfuel) as (r & g' & Hr).
  exists r.*2, g'. rewrite sample_slots_batch, run_rmap.
  unfold sample_slots. by rewrite Hr.
Qed.

Lemma run_sample_value (fuel : nat) m (batch_size : Z) (g g' : rng)
    (batch : list (option (Transition tensor))) :
  0 <= batch_size <= len m →
  run (sample fuel m batch_size) g = (Value batch, g') →
  Py.len batch = batch_size ∧
  ∃ slots : list nat, NoDup slots ∧
    Forall2 (fun i x => memory m !! i = Some x) slots batch.
Proof.
  intros Hbs Hrun. pose proof (run_sample_in_range fuel m batch_size g Hbs) as Hspec.
  by rewrite Hrun in Hspec.
Qed.

(** C3. For [0 <= batch_size <= len(memory)], [sample] never raises, and
    what it returns is [batch_size] elements read from as many different
    slots of [memory].  It returns on every generator when [random.sample]
    takes its first branch ([len(memory) <= setsize]), which has no loop
    of its own; in the second branch, whose rejection loop draws until it
    finds a free index, it returns on a generator that is fair from the
    state of the call, as soon as the model is given fuel enough.  With
    [_randbelow] uniform, every set of [batch_size] slots is the set of
    slots of the batch with the same probability, which is positive once
    the rejection loop is given a draw. *)
Theorem sample_without_replacement (fuel : nat) m (batch_size : Z) (g : rng) :
  0 <= batch_size <= len m →
  match (run (sample fuel m batch_size) g).1 with
  | Value batch =>
      Py.len batch = batch_size ∧
      ∃ slots : list nat, NoDup slots ∧
        Forall2 (fun i x => memory m !! i = Some x) slots batch
  | Raised _ => False
  | OutOfFuel => True
  end ∧
  (len m <= Random.setsize batch_size →
     ∃ batch g', run (sample fuel m batch_size) g = (Value batch, g') ∧
       Py.len batch = batch_size ∧
       ∃ slots : list nat, NoDup slots ∧
         Forall2 (fun i x => memory m !! i = Some x) slots batch) ∧
  (fair_from (length (memory m)) g →
     ∃ fuel0, ∀ fuel', (fuel0 ≤ fuel')%nat →
       ∃ batch g', run (sample fuel' m batch_size) g = (Value batch, g') ∧
         Py.len batch = batch_size ∧
         ∃ slots : list nat, NoDup slots ∧
           Forall2 (fun i x => memory m !! i = Some x) slots batch) ∧
  sample fuel m batch_size = rmap (fmap snd) (sample_slots fuel m batch_size) ∧
  ∀ S S' : gset nat,
    Z.of_nat (size S) = batch_size → (∀ s, s ∈ S → Z.of_nat s < len m) →
    Z.of_nat (size S') = batch_size → (∀ s, s ∈ S' → Z.of_nat s < len m) →
    Pr (sample_slots fuel m batch_size) (fun r => list_to_set r.*1 = S) =
    Pr (sample_slots fuel m batch_size) (fun r => list_to_set r.*1 = S') ∧
    ((0 < fuel)%nat →
     (0 < Pr (sample_slots fuel m batch_size) (fun r => list_to_set r.*1 = S))%Qc).
Proof.
  intros Hbs. split; [by apply run_sample_in_range|]. split; [|split; [|split]].
  - intros Hpool.
    destruct (sample_returns_pool fuel m batch_size g Hbs Hpool) as (batch & g' & Hrun).
    exists batch, g'. split; [done|]. by apply (run_sample_value fuel m batch_size g g').
  - intros Hfair.
    destruct (sample_returns_fair m batch_size g Hbs Hfair) as (fuel0 & Hrun).
    exists fuel0. intros fuel' Hfuel'.
    destruct (Hrun fuel' Hfuel') as (batch & g' & Hr).
    exists batch, g'. split; [done|]. by apply (run_sample_value fuel' m batch_size g g').
  - apply sample_slots_batch.
  - intros S S' HS HsubS HS' HsubS'.
    assert (Hw : ∀ T : gset nat,
               Z.of_nat (size T) = batch_size → (∀ s, s ∈ T → Z.of_nat s < len m) →
               Pr (sample_slots fuel m batch_size) (fun r => list_to_set r.*1 = T) =
               sample_weight fuel (length (imap pair (memory m))) batch_size).
    { intros T HT HsubT. unfold sample_slots.
      apply (sample_weight_spec fst); [by rewrite len_slots|apply slots_key|done|].
      intros s Hs. specialize (HsubT s Hs). rewrite length_imap.
      unfold len, Py.len in HsubT. lia. }
    rewrite !Hw by done. split; [done|].
    intros Hfuel. apply sample_weight_pos; [done|].
    rewrite length_imap. unfold len, Py.len in Hbs. lia.
Qed.

(** C4, as the code has it.  [sample] raises [ValueError], and draws
    nothing, when [batch_size] is above [len(memory)] and also when it is
    negative; for [0 <= batch_size <= len(memory)] it does not raise. *)
Theorem sample_raises_outside_range (fuel : nat) m (batch_size : Z) (g : rng) :
  (len m < batch_size → run (sample fuel m batch_size) g = (Raised ValueError, g)) ∧
  (batch_size < 0 → run (sample fuel m batch_size) g = (Raised ValueError, g)) ∧
  (0 <= batch_size <= len m → ∀ e, (run (sample fuel m batch_size) g).1 ≠ Raised e).
Proof.
  split; [|split].
  - intros Hbig. apply run_sample_out_of_range. lia.
  - intros Hneg. apply run_sample_out_of_range. lia.
  - intros Hbs e He. pose proof (run_sample_in_range fuel m batch_size g Hbs) as Hrun.
    by rewrite He in Hrun.
Qed.

End ReplaySampleProofs.

Section WheelProofs.
#[local] Existing Instances Toy.floating Toy.wheel.

Lemma draws_from_lookup `{RandomSource} (n d i : nat) (g : rng) :
  (i < d)%nat → draws_from n d g !! i = Some (randbelow n (after_draws n i g)).1.
Proof.
  revert i g. induction d as [|d IH]; intros i g Hi; [lia|].
  destruct i as [|i]; [done|]. simpl. apply IH. lia.
Qed.

Lemma wheel_states_all (g : Toy.wheel_state) : g ∈ Toy.wheel_states.
Proof.
  apply (list_elem_of_lookup_2 _ (Toy.wheel_value g)).
  by destruct g as [[[[[[] []] []] []] []] []].
Qed.

(** From each of its states the wheel draws every index below 22 within
    64 draws. *)
Lemma wheel_draws_all :
  Forall (fun g => Forall (fun j => j ∈ draws_from 22 64 g) (seq 0 22)) Toy.wheel_states.
Proof. apply (bool_decide_unpack _). vm_compute. exact I. Qed.

Lemma wheel_fair_from (g : Toy.wheel_state) : fair_from 22 g.
Proof.
  apply fair_from_draws_all. intros d j Hj.
  pose proof wheel_draws_all as Hall. rewrite Forall_forall in Hall.
  specialize (Hall (after_draws 22 d g) (wheel_states_all _)).
  rewrite Forall_forall in Hall.
  destruct (proj1 (list_elem_of_lookup _ _) (Hall j ltac:(apply elem_of_seq; lia)))
    as (d' & Hd').
  assert (Hlt : (d' < 64)%nat).
  { apply lookup_lt_Some in Hd'. revert Hd'. clear. generalize (after_draws 22 d g).
    intros g0. assert (Hlen : ∀ n k (g1 : Toy.wheel_state), length (draws_from n k g1) = k).
    { intros n k. induction k as [|k IH]; intros g1; simpl; [done|]. by rewrite IH. }
    by rewrite Hlen. }
  rewrite (draws_from_lookup 22 64 d' _ Hlt) in Hd'.
  exists d'. rewrite <- after_draws_add. congruence.
Qed.

End WheelProofs.

Section ReplaySampleWitnesses.
#[local] Existing Instances Toy.floating.

(** C3 on a memory of three transitions, two of them asked for, with the
    counting generator: the first branch of [random.sample]; and on a
    memory of 22 transitions, three of them asked for, with the generator
    of 64 states: the second branch, whose rejection loop draws twice for
    the second and the third element.  On that memory the slots 0, 1, 2
    are as likely as the slots 5, 13, 21. *)
Lemma sample_without_replacement_witness :
  (0 <= 2 <= len Toy.memory3 ∧ len Toy.memory3 <= Random.setsize 2 ∧
   ∃ batch g', @run _ Toy.counter _ (sample 0 Toy.memory3 2) 0%nat = (Value batch, g') ∧
     Py.len batch = 2 ∧
     ∃ slots : list nat, NoDup slots ∧
       Forall2 (fun i x => memory Toy.memory3 !! i = Some x) slots batch) ∧
  (0 <= 3 <= len Toy.memory22 ∧
   @fair_from _ Toy.wheel (length (memory Toy.memory22)) (Toy.wheel_of 0) ∧
   ¬ len Toy.memory22 <= Random.setsize 3 ∧
   ∃ fuel0, ∀ fuel', (fuel0 ≤ fuel')%nat →
     ∃ batch g', @run _ Toy.wheel _ (sample fuel' Toy.memory22 3) (Toy.wheel_of 0) =
                   (Value batch, g') ∧
       Py.len batch = 3 ∧
       ∃ slots : list nat, NoDup slots ∧
         Forall2 (fun i x => memory Toy.memory22 !! i = Some x) slots batch) ∧
  (Pr (sample_slots 2 Toy.memory22 3) (fun r => list_to_set r.*1 = ({[0; 1; 2]} : gset nat))%nat =
   Pr (sample_slots 2 Toy.memory22 3) (fun r => list_to_set r.*1 = ({[5; 13; 21]} : gset nat))%nat ∧
   (0 < Pr (sample_slots 2 Toy.memory22 3)
          (fun r => list_to_set r.*1 = ({[0; 1; 2]} : gset nat))%nat)%Qc).
Proof.
  assert (Hbs3 : 0 <= 2 <= len Toy.memory3) by (vm_compute; split; discriminate).
  assert (Hpool : len Toy.memory3 <= Random.setsize 2) by (vm_compute; discriminate).
  assert (Hbs22 : 0 <= 3 <= len Toy.memory22) by (vm_compute; split; discriminate).
  assert (Hset : ¬ len Toy.memory22 <= Random.setsize 3) by (vm_compute; intros Hle; by apply Hle).
  assert (Hfair : @fair_from _ Toy.wheel (length (memory Toy.memory22)) (Toy.wheel_of 0))
    by exact (wheel_fair_from (Toy.wheel_of 0)).
  assert (HS : ∀ a b c : nat, (a < b < c)%nat → (c < 22)%nat →
             Z.of_nat (size ({[a; b; c]} : gset nat)) = 3 ∧
             ∀ s, s ∈ ({[a; b; c]} : gset nat) → Z.of_nat s < len Toy.memory22).
  { intros a b c Hab Hc. split.
    - rewrite !size_union, !size_singleton by (set_unfold; lia). done.
    - intros s Hs. change (len Toy.memory22) with 22. set_unfold. lia. }
  destruct (HS 0 1 2)%nat as [HS1 HS1']; [lia|lia|].
  destruct (HS 5 13 21)%nat as [HS2 HS2']; [lia|lia|].
  pose proof (@sample_without_replacement _ Toy.counter _ 0%nat Toy.memory3 2 0%nat Hbs3)
    as (_ & Hret3 & _).
  pose proof (@sample_without_replacement _ Toy.wheel _ 0%nat Toy.memory22 3 (Toy.wheel_of 0)
                Hbs22) as (_ & _ & Hret22 & _).
  pose proof (@sample_without_replacement _ Toy.wheel _ 2%nat Toy.memory22 3 (Toy.wheel_of 0)
                Hbs22) as (_ & _ & _ & _ & Hpr).
  destruct (Hpr ({[0; 1; 2]})%nat ({[5; 13; 21]})%nat HS1 HS1' HS2 HS2') as [Heq Hpos].
  split; [|split].
  - split; [exact Hbs3|]. split; [exact Hpool|]. exact (Hret3 Hpool).
  - split; [exact Hbs22|]. split; [exact Hfair|]. split; [exact Hset|]. exact (Hret22 Hfair).
  - split; [exact Heq|]. apply Hpos. lia.
Defined.

(** The batches of those runs: the transitions of slots 0 and 1; and, with
    two draws allowed to the rejection loop, those of slots 0, 1 and 2. *)
Example sample_memory22 :
  (@run _ Toy.wheel _ (sample 2 Toy.memory22 3) (Toy.wheel_of 0)).1 =
    Value [Some (mkTransition 0%nat 0%nat (Some 1%nat) 1%nat);
           Some (mkTransition 1%nat 0%nat (Some 2%nat) 1%nat);
           Some (mkTransition 2%nat 0%nat (Some 3%nat) 1%nat)] ∧
  (@run _ Toy.wheel _ (sample 1 Toy.memory22 3) (Toy.wheel_of 0)).1 = OutOfFuel.
Proof. split; vm_compute; reflexivity. Qed.

#[local] Existing Instance Toy.counter.

Example sample_memory3 :
  (run (sample 1 Toy.memory3 2) 0%nat).1 =
    Value [Some (mkTransition 0%nat 0%nat (Some 1%nat) 1%nat);
           Some (mkTransition 1%nat 0%nat (Some 2%nat) 1%nat)].
Proof. vm_compute. reflexivity. Qed.

(** C4 as stated fails below zero: [-1 <= len(memory)], and [sample(-1)]
    raises. *)
Lemma sample_negative_batch_size_raises :
  -1 <= len Toy.memory3 ∧
  (run (sample 1 Toy.memory3 (-1)) 0%nat).1 = Raised ValueError.
Proof. split; [vm_compute; discriminate|vm_compute; reflexivity]. Qed.

(** C4 as amended, on the same memory: batch sizes 4, -1 and 2. *)
Lemma sample_raises_outside_range_witness :
  (len Toy.memory3 < 4 ∧
   run (sample 1 Toy.memory3 4) 0%nat = (Raised ValueError, 0%nat)) ∧
  (-1 < 0 ∧
   run (sample 1 Toy.memory3 (-1)) 0%nat = (Raised ValueError, 0%nat)) ∧
  (0 <= 2 <= len Toy.memory3 ∧
   ∀ e, (run (sample 1 Toy.memory3 2) 0%nat).1 ≠ Raised e).
Proof.
  assert (H4 : len Toy.memory3 < 4) by reflexivity.
  assert (Hneg : -1 < 0) by reflexivity.
  assert (H2 : 0 <= 2 <= len Toy.memory3) by (vm_compute; split; discriminate).
  split; [split; [exact H4|]|split; [split; [exact Hneg|]|split; [exact H2|]]].
  - exact (proj1 (sample_raises_outside_range 1 Toy.memory3 4 0%nat) H4).
  - exact (proj1 (proj2 (sample_raises_outside_range 1 Toy.memory3 (-1) 0%nat)) Hneg).
  - exact (proj2 (proj2 (sample_raises_outside_range 1 Toy.memory3 2 0%nat)) H2).
Defined.

End ReplaySampleWitnesses.

(** ** The script *)

Lemma string_of_uint_inj (d d' : Decimal.uint) :
  NilEmpty.string_of_uint d = NilEmpty.string_of_uint d' → d = d'.
Proof.
  intros Heq. apply (f_equal NilEmpty.uint_of_string) in Heq.
  rewrite !NilEmpty.usu in Heq. congruence.
Qed.

Lemma string_of_pos_no_sign (p : positive) (s : string) :
  NilEmpty.string_of_uint (Pos.to_uint p) ≠ String "-"%char s.
Proof. destruct (Pos.to_uint p); simpl; discriminate. Qed.

Lemma string_of_pos_not_zero (p : positive) :
  NilEmpty.string_of_uint (Pos.to_uint p) ≠ "0"%string.
Proof.
  intros Heq. change "0"%string with (NilEmpty.string_of_uint (Decimal.D0 Decimal.Nil)) in Heq.
  apply string_of_uint_inj in Heq.
  pose proof (DecimalPos.Unsigned.of_to p) as Hp. rewrite Heq in Hp. discriminate.
Qed.

(** [str] tells integers apart: a file name made with [str(i)] names one
    episode. *)
Lemma str_inj (i j : Z) : Py.str i = Py.str j → i = j.
Proof.
  destruct i as [|p|p], j as [|q|q]; simpl; intros Heq; try done.
  - symmetry in Heq. by apply string_of_pos_not_zero in Heq.
  - by apply string_of_pos_not_zero in Heq.
  - apply string_of_uint_inj, DecimalPos.Unsigned.to_uint_inj in Heq. by subst.
  - by apply string_of_pos_no_sign in Heq.
  - symmetry in Heq. by apply string_of_pos_no_sign in Heq.
  - injection Heq as Heq.
    apply string_of_uint_inj, DecimalPos.Unsigned.to_uint_inj in Heq. by subst.
Qed.

Section ScriptProofs.
Context `{RandomSource} `{!Torch} `{!Gym}.

Lemma written_nothing (w w' : World) : files w' = files w → written w w' = [].
Proof. intros Hf. unfold written. rewrite Hf. by apply drop_all. Qed.

Lemma end_of_episode_nets (i : Z) (w : World) :
  policy_net (end_of_episode i w) = policy_net w ∧
  target_net (end_of_episode i w) =
    (if decide (i mod 200 = 0) then policy_net w else target_net w).
Proof.
  unfold end_of_episode, TARGET_UPDATE.
  destruct (Z.eqb_spec (i mod 200) 0) as [H200|H200];
    destruct (Z.eqb_spec (i mod 1000) 0) as [H1000|H1000];
    destruct (decide (i mod 200 = 0)) as [Hd|Hd]; try contradiction; simpl; auto.
Qed.

(** C6. At the end of episode [i] the target network is the policy
    network when [i mod 200 = 0] and is what it was otherwise; the policy
    network is never touched by that step. *)
Theorem target_synced_every_target_update (i : Z) (w : World) :
  TARGET_UPDATE = 200 ∧
  policy_net (end_of_episode i w) = policy_net w ∧
  target_net (end_of_episode i w) =
    (if decide (i mod 200 = 0) then policy_net w else target_net w).
Proof.
  split; [reflexivity|].
  apply end_of_episode_nets.
Qed.

(** C7. The end of episode [i] writes files exactly when [i mod 1000 = 0],
    and then exactly two, in this order: the parameters of the policy
    network under [policy_net_<i>.pth] and those of the target network
    under [target_net_<i>.pth]. *)
Theorem checkpoints_every_thousand (i : Z) (w : World) :
  written w (end_of_episode i w) =
    (if decide (i mod 1000 = 0)
     then [("policy_net_" +:+ Py.str i +:+ ".pth", StateDict (policy_net (end_of_episode i w)));
           ("target_net_" +:+ Py.str i +:+ ".pth", StateDict (target_net (end_of_episode i w)))]
     else []).
Proof.
  unfold end_of_episode.
  destruct (Z.eqb_spec (i mod 1000) 0) as [H1000|H1000];
    destruct (decide (i mod 1000 = 0)) as [Hd|Hd]; try contradiction.
  - unfold written, write_file. simpl.
    destruct (i mod TARGET_UPDATE =? 0); simpl;
      by rewrite <- app_assoc, drop_app_length.
  - apply written_nothing. by destruct (i mod TARGET_UPDATE =? 0).
Qed.

(** A checkpoint is taken right after a synchronisation: its two files hold
    the same parameters. *)
Lemma checkpoint_dumps_coincide (i : Z) (w : World) :
  i mod 1000 = 0 → target_net (end_of_episode i w) = policy_net (end_of_episode i w).
Proof.
  intros H1000.
  assert (H200 : i mod 200 = 0).
  { apply Z.mod_divide; [lia|]. apply Z.mod_divide in H1000; [|lia].
    destruct H1000 as [q ->]. exists (q * 5). lia. }
  destruct (end_of_episode_nets i w) as (-> & ->).
  by rewrite decide_True.
Qed.

(** C10. When a duration is appended and [plot_durations] called, the
    figure is saved exactly when the number [n] of durations recorded, the
    new one included, is a multiple of 10, and then under the name
    [Duration_<n>.png]. *)
Theorem plot_saved_every_ten_durations (d : Z) (w : World) :
  let n := Py.len (episode_durations w) + 1 in
  written w (plot_durations (with_episode_durations (episode_durations w ++ [d]) w)) =
    (if decide (n mod 10 = 0)
     then [("Duration_" +:+ Py.str n +:+ ".png", Figure (episode_durations w ++ [d]))]
     else []).
Proof.
  intros n. unfold plot_durations. simpl.
  assert (Hn : Py.len (episode_durations w ++ [d]) = n).
  { unfold n, Py.len. rewrite length_app. simpl. lia. }
  rewrite Hn.
  destruct (Z.eqb_spec (n mod 10) 0) as [H10|H10];
    destruct (decide (n mod 10 = 0)) as [Hd|Hd]; try contradiction.
  - unfold written, write_file. simpl. by rewrite drop_app_length.
  - by apply written_nothing.
Qed.

(** C9. With fewer than [BATCH_SIZE] transitions in the replay memory,
    [optimize_model] returns at once: nothing is drawn from the generator
    and the whole state, the replay memory, both networks and the
    optimizer included, is what it was. *)
Theorem optimize_model_returns_early (fuel : nat) (w : World) :
  len (replay w) < BATCH_SIZE →
  optimize_model fuel w = Value w.
Proof.
  intros Hlen. unfold optimize_model.
  apply Z.ltb_lt in Hlen. by rewrite Hlen.
Qed.

Lemma argmax_from_bound (l : list float) (best : float) (best_i i : nat) :
  (best_i < i)%nat → (argmax_from best best_i i l < i + length l)%nat.
Proof.
  revert best best_i i. induction l as [|v l IH]; intros best best_i i Hi; simpl; [lia|].
  destruct (fgt v best).
  - specialize (IH v i (S i)). lia.
  - specialize (IH best best_i (S i)). lia.
Qed.

Lemma argmax_forward (p : params) (x : tensor) :
  ∃ a, argmax (forward p x).1 = Value a ∧ (a = 0 ∨ a = 1).
Proof.
  unfold forward. destruct (features p x) as [feat p'].
  destruct (head p) as [[w0 b0] [w1 b1]]. simpl.
  eexists; split; [done|].
  pose proof (argmax_from_bound [fadd (dot w1 feat) b1] (fadd (dot w0 feat) b0) 0 1) as Hb.
  simpl in Hb. lia.
Qed.

Lemma run_randrange_2 (g : rng) :
  ∃ a, (run (Random.randrange 2) g).1 = Value a ∧ (a = 0 ∨ a = 1).
Proof.
  unfold Random.randrange. simpl.
  pose proof (randbelow_lt (Z.to_nat 2) g) as Hlt.
  destruct (randbelow (Z.to_nat 2) g) as [j g']. simpl in *.
  exists (Z.of_nat j). split; [done|]. lia.
Qed.

(** [select_action] always returns, and returns 0 or 1; it leaves the
    environment alone. *)
Lemma select_action_spec (w : World) (st : tensor) :
  ∃ a w1, select_action w st = Value (a, w1) ∧ (a = 0 ∨ a = 1) ∧
          steps_done w1 = steps_done w + 1 ∧
          environment w1 = environment w ∧ env_calls w1 = env_calls w.
Proof.
  unfold select_action.
  destruct (random_float (generator w)) as [u g1].
  destruct (fgt u (eps_threshold (steps_done w))).
  - destruct (argmax_forward (policy_net w) st) as (a & Ha & Hrange).
    simpl. destruct (forward (policy_net w) st) as [q p']. simpl in Ha.
    rewrite Ha. simpl. eexists a, _. by split.
  - destruct (run_randrange_2 g1) as (a & Ha & Hrange).
    destruct (run (Random.randrange 2) g1) as [o g2]. simpl in Ha. subst o.
    simpl. eexists a, _. by split.
Qed.

(** C8. [select_action] returns 0 or 1 on either branch, so the action the
    loop plays, the selected index plus 2, is 2 or 3: after the
    [env.step(1)] of the round the environment is stepped three times with
    that action, and with nothing else. *)
Theorem selected_action_is_0_or_1 (w : World) (st : tensor) :
  ∃ a w1 r w', select_action w st = Value (a, w1) ∧ (a = 0 ∨ a = 1) ∧
               perform_action w st = Value (a, r, w') ∧
               env_calls w' = env_calls w ++ [1; a + 2; a + 2; a + 2] ∧
               (a + 2 = 2 ∨ a + 2 = 3).
Proof.
  destruct (select_action_spec w st) as (a & w1 & Hsel & Hrange & _ & _ & Hcalls).
  unfold perform_action. rewrite Hsel. simpl.
  unfold step_env.
  repeat match goal with
         | |- context [env_step ?x ?e] =>
             let r := fresh "r" in let e' := fresh "e" in
             destruct (env_step x e) as [[[? ?] ?] e'] eqn:?; simpl
         end.
  eexists a, w1, _, _. split; [done|]. split; [done|]. split; [done|].
  simpl. rewrite Hcalls, <- !app_assoc. simpl. split; [done|lia].
Qed.

End ScriptProofs.

Section ScriptWitnesses.
#[local] Existing Instances Toy.floating Toy.counter Toy.torch Toy.gym.

(** C9 on the world the script starts from: the replay memory is empty. *)
Lemma optimize_model_returns_early_witness :
  len (replay Toy.world0) < BATCH_SIZE ∧
  optimize_model 0 Toy.world0 = Value Toy.world0.
Proof.
  split; [reflexivity|]. apply optimize_model_returns_early. reflexivity.
Defined.

(** The files of a checkpoint, of an episode without one, and of the tenth
    plot. *)
Example checkpoint_names_2000 :
  (written Toy.world0 (end_of_episode 2000 Toy.world0)).*1 =
    ["policy_net_2000.pth"; "target_net_2000.pth"]%string.
Proof. vm_compute. reflexivity. Qed.

Example no_checkpoint_at_200 :
  written Toy.world0 (end_of_episode 200 Toy.world0) = [].
Proof. vm_compute. reflexivity. Qed.

Example plot_name_10 :
  (written Toy.world0
     (plot_durations (with_episode_durations (replicate 10 7) Toy.world0))).*1 =
    ["Duration_10.png"]%string.
Proof. vm_compute. reflexivity. Qed.

End ScriptWitnesses.

(** * More of the code *)

(** ** The replay memory *)

Section ReplayMemoryMore.
Context {tensor : Type}.
Implicit Types (m : ReplayMemory tensor) (t : Transition tensor).

(** X1. A memory of capacity zero or less cannot take a transition: the
    first push finds no slot to write and raises [IndexError]. *)
Theorem push_without_capacity_raises (c : Z) t (ts : list (Transition tensor)) :
  c <= 0 → pushes (init c) (t :: ts) = Raised IndexError.
Proof.
  intros Hc. simpl. unfold push_transition, push, init. simpl.
  destruct (Z.ltb_spec (Py.len (@nil (option (Transition tensor)))) c) as [Hlt|_].
  - unfold Py.len in Hlt. simpl in Hlt. lia.
  - reflexivity.
Qed.

Lemma from_position_elem_of m (x : option (Transition tensor)) :
  x ∈ from_position m ↔ x ∈ memory m.
Proof.
  unfold from_position. rewrite elem_of_app.
  rewrite <- (take_drop (Z.to_nat (position m)) (memory m)) at 3.
  rewrite elem_of_app. tauto.
Qed.

Lemma ring_inv_filling (c : Z) (ts : list (Transition tensor)) m :
  0 < c → Z.of_nat (length ts) <= c → ring_inv c ts m → memory m = Some <$> ts.
Proof.
  intros Hc Hn (_ & Hpos & Hlen & Hord).
  unfold from_position, retained in Hord.
  replace (length ts - Z.to_nat c)%nat with 0%nat in Hord by lia.
  rewrite drop_0 in Hord. rewrite <- Hord.
  destruct (decide (Z.of_nat (length ts) = c)) as [Heq|Hne].
  - rewrite Hpos, Heq, Z_mod_same_full. simpl. by rewrite app_nil_r.
  - rewrite Hpos, Z.mod_small, Nat2Z.id by lia.
    rewrite drop_ge, take_ge by lia. done.
Qed.

(** X2. After [n] pushes [position] is [n mod c]; and as long as no more
    than [c] transitions were pushed, [memory] is the list of them in the
    order they came. *)
Theorem filling_keeps_insertion_order (c : Z) (ts : list (Transition tensor)) :
  0 < c →
  ∃ m, pushes (init c) ts = Value m ∧ capacity m = c ∧
       position m = Z.of_nat (length ts) mod c ∧
       (Z.of_nat (length ts) <= c → memory m = Some <$> ts).
Proof.
  intros Hc. destruct (pushes_ring_inv c ts Hc) as (m & Hrun & Hinv).
  exists m. split; [done|]. split; [apply Hinv|]. split; [apply Hinv|].
  intros Hn. by apply (ring_inv_filling c).
Qed.

Lemma ring_inv_slots (c : Z) (ts : list (Transition tensor)) m :
  ring_inv c ts m →
  ∀ x, x ∈ memory m ↔ ∃ t, x = Some t ∧ t ∈ retained c ts.
Proof.
  intros (_ & _ & _ & Hord) x. rewrite <- from_position_elem_of, Hord.
  rewrite list_elem_of_fmap. naive_solver.
Qed.

(** X3. No slot of the memory is ever left at [None]: after any pushes the
    slots hold exactly the last [c] transitions pushed. *)
Theorem slots_hold_last_pushes (c : Z) (ts : list (Transition tensor)) :
  0 < c →
  ∃ m, pushes (init c) ts = Value m ∧
       ∀ x, x ∈ memory m ↔ ∃ t, x = Some t ∧ t ∈ retained c ts.
Proof.
  intros Hc. destruct (pushes_ring_inv c ts Hc) as (m & Hrun & Hinv).
  exists m. split; [done|]. by apply ring_inv_slots.
Qed.

(** X4. A push stores the transition in the slot [position] pointed to
    and leaves every other slot as it was. *)
Theorem push_writes_one_slot (c : Z) (ts : list (Transition tensor)) t :
  0 < c →
  ∃ m m', pushes (init c) ts = Value m ∧ push_transition m t = Value m' ∧
          memory m' !! Z.to_nat (position m) = Some (Some t) ∧
          ∀ i, i ≠ Z.to_nat (position m) → (i < length (memory m))%nat →
               memory m' !! i = memory m !! i.
Proof.
  intros Hc. destruct (pushes_ring_inv c ts Hc) as (m & Hrun & Hinv).
  destruct (push_ring_inv c ts m t Hc Hinv) as (m' & Hpush & Hinv' & _ & _ & Hmem).
  pose proof (ring_inv_position_range c ts m Hc Hinv) as Hp.
  pose proof (ring_inv_len c ts m Hc Hinv) as Hlen.
  assert (Hple : position m <= Z.of_nat (length ts)).
  { destruct Hinv as (_ & -> & _). apply Z.mod_le; lia. }
  exists m, m'. split; [done|]. split; [done|]. rewrite Hmem. split.
  - apply list_lookup_insert_eq.
    destruct (Z.ltb_spec (len m) c) as [Hlt|Hge].
    + rewrite length_app. simpl. unfold len, Py.len in *. lia.
    + unfold len, Py.len in *. lia.
  - intros i Hi Hlt. rewrite list_lookup_insert_ne by done.
    destruct (len m <? c); [by rewrite lookup_app_l|done].
Qed.

(** X5. A transition pushed stays in the memory for the next [c - 1]
    pushes at least. *)
Theorem pushed_transition_is_retained (c : Z) (ts us : list (Transition tensor)) t :
  0 < c → Z.of_nat (length us) < c →
  ∃ m, pushes (init c) (ts ++ t :: us) = Value m ∧ Some t ∈ memory m.
Proof.
  intros Hc Hus. destruct (pushes_ring_inv c (ts ++ t :: us) Hc) as (m & Hrun & Hinv).
  exists m. split; [done|]. apply (ring_inv_slots c _ m Hinv).
  exists t. split; [done|]. unfold retained.
  rewrite length_app. simpl.
  rewrite drop_app_le by lia. apply elem_of_app. right. left.
Qed.

End ReplayMemoryMore.

Section ReplaySampleMore.
Context `{RandomSource} {tensor : Type}.
Implicit Types (m : ReplayMemory tensor).

Lemma slots_cover (n : nat) (slots : list nat) :
  NoDup slots → length slots = n → (∀ i, i ∈ slots → (i < n)%nat) → slots ≡ₚ seq 0 n.
Proof.
  intros Hnd Hlen Hlt. apply submseteq_length_Permutation.
  - apply NoDup_submseteq; [done|]. intros i Hi. apply elem_of_seq. specialize (Hlt i Hi). lia.
  - rewrite length_seq. lia.
Qed.

Lemma lookups_fmap {A} (l : list A) (slots : list nat) (batch : list A) :
  Forall2 (fun i x => l !! i = Some x) slots batch →
  Some <$> batch = (fun i => l !! i) <$> slots.
Proof. induction 1 as [|i x slots batch Hx _ IH]; csimpl; [done|]. by rewrite Hx, IH. Qed.

Lemma lookups_seq {A} (l : list A) :
  Some <$> l = (fun i => l !! i) <$> seq 0 (length l).
Proof.
  apply list_eq. intros i. rewrite !list_lookup_fmap.
  destruct (decide (i < length l)%nat) as [Hi|Hi].
  - rewrite lookup_seq_lt by done. simpl.
    by destruct (lookup_lt_is_Some_2 l i Hi) as [x ->].
  - rewrite lookup_seq_ge by lia. by rewrite lookup_ge_None_2 by lia.
Qed.

Lemma omap_id_Some {A} (l : list A) : omap id (Some <$> l) = l.
Proof. induction l as [|x l IH]; csimpl; [done|]. by rewrite IH. Qed.

Lemma Some_Permutation_inv {A} (l k : list A) : Some <$> l ≡ₚ Some <$> k → l ≡ₚ k.
Proof.
  intros Hp. apply (omap_Permutation id) in Hp. by rewrite !omap_id_Some in Hp.
Qed.

Lemma run_sample_all (fuel : nat) m (g g' : rng)
    (batch : list (option (Transition tensor))) :
  run (sample fuel m (len m)) g = (Value batch, g') → batch ≡ₚ memory m.
Proof.
  intros Hrun.
  pose proof (run_sample_in_range fuel m (len m) g) as Hspec.
  rewrite Hrun in Hspec. simpl in Hspec.
  destruct Hspec as (Hlen & slots & Hnd & Hall); [unfold len, Py.len; lia|].
  apply Some_Permutation_inv.
  rewrite (lookups_fmap _ _ _ Hall), (lookups_seq (memory m)).
  apply fmap_Permutation, slots_cover; [done| |].
  - apply Forall2_length in Hall. unfold len, Py.len in Hlen. lia.
  - intros i Hi. apply list_elem_of_lookup in Hi as [j Hj].
    destruct (Forall2_lookup_l _ _ _ _ _ Hall Hj) as (x & _ & Hx).
    by apply lookup_lt_Some in Hx.
Qed.

(** X6. Asked for the whole buffer, [sample] returns it shuffled.
    Whatever it returns is a permutation of [memory]; and it does return:
    on every generator when [random.sample] takes its first branch
    ([len(memory) <= setsize]), and, once the model is given fuel enough,
    on a generator that is fair from the state of the call. *)
Theorem sample_all_is_permutation (fuel : nat) m (g : rng) :
  (∀ batch g', run (sample fuel m (len m)) g = (Value batch, g') → batch ≡ₚ memory m) ∧
  (len m <= Random.setsize (len m) →
     ∃ batch g', run (sample fuel m (len m)) g = (Value batch, g') ∧ batch ≡ₚ memory m) ∧
  (fair_from (length (memory m)) g →
     ∃ fuel0, ∀ fuel', (fuel0 ≤ fuel')%nat →
       ∃ batch g', run (sample fuel' m (len m)) g = (Value batch, g') ∧
                   batch ≡ₚ memory m).
Proof.
  assert (Hbs : 0 <= len m <= len m) by (unfold len, Py.len; lia).
  split; [|split].
  - intros batch g'. apply run_sample_all.
  - intros Hpool.
    destruct (sample_returns_pool fuel m (len m) g Hbs Hpool) as (batch & g' & Hrun).
    exists batch, g'. split; [done|]. by apply (run_sample_all fuel m g g').
  - intros Hfair.
    destruct (sample_returns_fair m (len m) g Hbs Hfair) as (fuel0 & Hrun).
    exists fuel0. intros fuel' Hfuel'.
    destruct (Hrun fuel' Hfuel') as (batch & g' & Hr).
    exists batch, g'. split; [done|]. by apply (run_sample_all fuel' m g g').
Qed.

(** X7. Whatever [sample] returns from a memory built by pushes was
    pushed, and is among the last [c] transitions pushed: a batch holds no
    [None]. *)
Theorem sample_returns_pushed_transitions (c : Z) (ts : list (Transition tensor))
    (fuel : nat) m (batch_size : Z) (g g' : rng) (batch : list (option (Transition tensor))) :
  0 < c → pushes (init c) ts = Value m →
  run (sample fuel m batch_size) g = (Value batch, g') →
  Forall (fun x => ∃ t, x = Some t ∧ t ∈ retained c ts) batch.
Proof.
  intros Hc Hpush Hrun.
  destruct (pushes_ring_inv c ts Hc) as (m0 & Hpush0 & Hinv).
  assert (m0 = m) as -> by congruence.
  destruct (decide (0 <= batch_size <= len m)) as [Hbs|Hbs].
  - pose proof (run_sample_in_range fuel m batch_size g Hbs) as Hspec.
    rewrite Hrun in Hspec. simpl in Hspec.
    destruct Hspec as (_ & slots & _ & Hall).
    apply Forall_forall. intros x Hx.
    apply list_elem_of_lookup in Hx as [j Hj].
    destruct (Forall2_lookup_r _ _ _ _ _ Hall Hj) as (i & _ & Hi).
    apply (ring_inv_slots c ts m Hinv). by eapply list_elem_of_lookup_2.
  - rewrite run_sample_out_of_range in Hrun by done. discriminate.
Qed.

End ReplaySampleMore.

(** ** The rounds, the episodes and the run *)

Section ScriptMore.
Context `{RandomSource} `{!Torch} `{!Gym}.

Lemma select_action_frame (w w1 : World) (st : tensor) (a : Z) :
  select_action w st = Value (a, w1) →
  steps_done w1 = steps_done w + 1 ∧ same_but_selection w w1.
Proof.
  unfold select_action.
  destruct (random_float (generator w)) as [u g1].
  destruct (fgt u (eps_threshold (steps_done w))).
  - destruct (forward _ st) as [q p']. destruct (argmax q) as [a'|e|]; simpl; try done.
    intros Heq. simplify_eq. by repeat split.
  - destruct (run (Random.randrange 2) g1) as [[a'|e|] g2]; simpl; try done.
    intros Heq. simplify_eq. by repeat split.
Qed.

Lemma step_env_frame (a : Z) (w : World) :
  policy_net (step_env a w).2 = policy_net w ∧
  target_net (step_env a w).2 = target_net w ∧
  optimizer (step_env a w).2 = optimizer w ∧
  replay (step_env a w).2 = replay w ∧
  steps_done (step_env a w).2 = steps_done w ∧
  episode_durations (step_env a w).2 = episode_durations w ∧
  generator (step_env a w).2 = generator w ∧
  files (step_env a w).2 = files w ∧
  env_calls (step_env a w).2 = env_calls w ++ [a].
Proof. unfold step_env. by destruct (env_step a (environment w)) as [r e']. Qed.

(** What [perform_action] leaves alone: everything but the policy network,
    the generator, the step counter and the environment. *)
Lemma perform_action_frame (w w1 : World) (st : tensor) (a : Z) (r : float * bool * Z) :
  perform_action w st = Value (a, r, w1) →
  steps_done w1 = steps_done w + 1 ∧
  target_net w1 = target_net w ∧ optimizer w1 = optimizer w ∧
  replay w1 = replay w ∧ episode_durations w1 = episode_durations w ∧
  files w1 = files w.
Proof.
  unfold perform_action.
  destruct (select_action w st) as [[a0 w0]|e|] eqn:Hsel; simpl; try done.
  apply select_action_frame in Hsel as (Hsteps & Htgt & Hopt & Hrep & Hdur & _ & _ & Hfiles).
  pose proof (step_env_frame 1 w0) as F1.
  destruct (step_env 1 w0) as [r1 wa]. simpl in F1.
  pose proof (step_env_frame (a0 + 2) wa) as F2.
  destruct (step_env (a0 + 2) wa) as [[[reward1 d1] l1] wb]. simpl in F2.
  pose proof (step_env_frame (a0 + 2) wb) as F3.
  destruct (step_env (a0 + 2) wb) as [[[reward2 d2] l2] wc]. simpl in F3.
  pose proof (step_env_frame (a0 + 2) wc) as F4.
  destruct (step_env (a0 + 2) wc) as [[[reward3 d3] l3] wd]. simpl in F4.
  intros Heq. simplify_eq.
  destruct F1 as (?&?&?&?&?&?&?&?&?), F2 as (?&?&?&?&?&?&?&?&?),
    F3 as (?&?&?&?&?&?&?&?&?), F4 as (?&?&?&?&?&?&?&?&?).
  repeat split; congruence.
Qed.

(** What [optimize_model] leaves alone, whenever it returns. *)
Lemma optimize_model_frame (fuel : nat) (w w' : World) :
  optimize_model fuel w = Value w' →
  target_net w' = target_net w ∧ replay w' = replay w ∧
  steps_done w' = steps_done w ∧ episode_durations w' = episode_durations w ∧
  environment w' = environment w ∧ env_calls w' = env_calls w ∧
  files w' = files w.
Proof.
  unfold optimize_model. destruct (len (replay w) <? BATCH_SIZE).
  - intros [= <-]. by repeat split.
  - destruct (run _ (generator w)) as [[batch|e|] g']; simpl; try done.
    destruct (train_step _ _ _ batch) as [[p' o']|e|]; simpl; try done.
    intros [= <-]. by repeat split.
Qed.

Lemma plot_durations_effects (w : World) :
  files (plot_durations w) = files w ++ plot_file (episode_durations w) ∧
  policy_net (plot_durations w) = policy_net w ∧
  target_net (plot_durations w) = target_net w ∧
  optimizer (plot_durations w) = optimizer w ∧
  replay (plot_durations w) = replay w ∧
  steps_done (plot_durations w) = steps_done w ∧
  episode_durations (plot_durations w) = episode_durations w ∧
  generator (plot_durations w) = generator w ∧
  environment (plot_durations w) = environment w ∧
  env_calls (plot_durations w) = env_calls w.
Proof.
  unfold plot_durations, plot_file.
  destruct (Z.eqb_spec (Py.len (episode_durations w) mod 10) 0) as [H10|H10];
    destruct (decide (Py.len (episode_durations w) mod 10 = 0)); try done; simpl.
  by rewrite app_nil_r.
Qed.

Lemma written_app (w w' : World) (fs : list (string * artifact)) :
  files w' = files w ++ fs → written w w' = fs.
Proof. intros Hf. unfold written. by rewrite Hf, drop_app_length. Qed.

Lemma optimize_model_short (fuel : nat) (w w' : World) :
  optimize_model fuel w = Value w' → len (replay w) < BATCH_SIZE → w' = w.
Proof.
  unfold optimize_model. intros Hrun Hlen%Z.ltb_lt. rewrite Hlen in Hrun. congruence.
Qed.

(** One round of the loop, read off its result. *)
Lemma time_step_effects (fuel : nat) (t : Z) (st sc : tensor) (w w' : World)
    (r : option (tensor * tensor)) :
  time_step fuel t st sc w = Value (w', r) →
  ∃ a rew Done lives next,
    (∃ w1, perform_action w st = Value (a, (rew, Done, lives), w1)) ∧
    (next = None ↔ lives <= 4 ∨ Done = true) ∧
    (next = None ↔ r = None) ∧
    (∀ p, r = Some p → next = Some p.1) ∧
    push (replay w) st (long_tensor a) next (reward_tensor rew) = Value (replay w') ∧
    steps_done w' = steps_done w + 1 ∧
    target_net w' = target_net w ∧
    (len (replay w') < BATCH_SIZE → optimizer w' = optimizer w) ∧
    episode_durations w' = episode_durations w ++ match r with Some _ => [] | None => [t + 1] end ∧
    files w' = files w ++ match r with
                         | Some _ => []
                         | None => plot_file (episode_durations w ++ [t + 1])
                         end.
Proof.
  unfold time_step.
  destruct (perform_action w st) as [[[a [[rew Done] lives]] w1]|e|] eqn:Hact; simpl; try done.
  pose proof (perform_action_frame _ _ _ _ _ Hact) as (Hsteps & Htgt & Hopt & Hrep & Hdur & Hfiles).
  set (done := if Done then true else if 4 <? lives then false else true).
  assert (Hdone : done = true ↔ lives <= 4 ∨ Done = true).
  { unfold done. destruct Done; [naive_solver|].
    destruct (Z.ltb_spec 4 lives); split; try done; try lia; intros [?|?]; try done; lia. }
  set (next := if negb done
               then Some (blend (float_lit "0.4") (get_screen (environment w1))
                                (float_lit "0.6") sc)
               else None).
  destruct (push (replay w1) st (long_tensor a) next (reward_tensor rew)) as [m|e|] eqn:Hpush;
    simpl; try done.
  destruct (optimize_model fuel (with_replay m w1)) as [w3|e|] eqn:Hopt3; simpl; try done.
  pose proof (optimize_model_short _ _ _ Hopt3) as Hshort.
  apply optimize_model_frame in Hopt3 as (Htgt3 & Hrep3 & Hsteps3 & Hdur3 & _ & _ & Hfiles3).
  simpl in *. rewrite Hrep in Hpush.
  assert (Hoptim : len (replay w3) < BATCH_SIZE → optimizer w3 = optimizer w).
  { rewrite Hrep3. intros Hlt. rewrite (Hshort Hlt). simpl. done. }
  unfold next in *. destruct done; simpl in *.
  - intros Heq. simplify_eq.
    pose proof (plot_durations_effects
                  (with_episode_durations (episode_durations w3 ++ [t + 1]) w3)) as
      (Hpf & _ & Hpt & _ & Hpr & Hps & Hpd & _).
    simpl in *.
    exists a, rew, Done, lives, None. split; [by eexists|].
    split; [naive_solver|]. split; [done|]. split; [done|].
    destruct (plot_durations_effects
                (with_episode_durations (episode_durations w3 ++ [t + 1]) w3)) as
      (_ & _ & _ & Hpo & _).
    simpl in Hpo.
    rewrite Hpr, Hps, Hpt, Hpd, Hpf, Hpo. repeat split; try congruence; done.
  - intros Heq. simplify_eq.
    exists a, rew, Done, lives,
      (Some (blend (float_lit "0.4") (get_screen (environment w1)) (float_lit "0.6") sc)).
    split; [by eexists|].
    split; [split; [done|intros Hd; apply Hdone in Hd; done]|].
    split; [done|]. split; [by intros p [= <-]|].
    rewrite !app_nil_r. repeat split; try congruence; done.
Qed.

Lemma push_len_mono {T : Type} (m m' : ReplayMemory T) (s a : T) (ns : option T) (r : T) :
  push m s a ns r = Value m' → len m <= len m'.
Proof.
  unfold push, Py.setitem, Py.mod_, len.
  set (mem1 := if Py.len (memory m) <? capacity m then memory m ++ [None] else memory m).
  assert (Hmem1 : Py.len (memory m) <= Py.len mem1).
  { unfold mem1, Py.len. destruct (_ <? _); [rewrite length_app|]; simpl; lia. }
  destruct (_ && _); [|destruct (_ && _)]; simpl; try done;
    (destruct (capacity m =? 0); simpl; [done|]; intros [= <-]; simpl;
     unfold Py.len in *; rewrite length_insert; lia).
Qed.

Lemma pushes_len_mono {T : Type} (trs : list (Transition T)) (m m' : ReplayMemory T) :
  pushes m trs = Value m' → len m <= len m'.
Proof.
  revert m. induction trs as [|tr trs IH]; intros m; simpl.
  - intros [= <-]. lia.
  - destruct (push_transition m tr) as [m1|e|] eqn:Hpush; simpl; try done.
    intros Hrest. apply push_len_mono in Hpush. apply IH in Hrest. lia.
Qed.

(** An episode's rounds, read off the result of the loop: [d] rounds were
    played. *)
Lemma episode_loop_effects (rounds fuel : nat) (t : Z) (st sc : tensor) (w w' : World) :
  episode_loop rounds fuel t st sc w = Value w' →
  ∃ d : nat, (1 ≤ d ≤ rounds)%nat ∧
    steps_done w' = steps_done w + Z.of_nat d ∧
    episode_durations w' = episode_durations w ++ [t + Z.of_nat d] ∧
    target_net w' = target_net w ∧
    (len (replay w') < BATCH_SIZE → optimizer w' = optimizer w) ∧
    (∃ trs : list (Transition tensor),
        length trs = d ∧ pushes (replay w) trs = Value (replay w')) ∧
    files w' = files w ++ plot_file (episode_durations w ++ [t + Z.of_nat d]).
Proof.
  revert t st sc w. induction rounds as [|rounds IH]; intros t st sc w; simpl; [done|].
  destruct (time_step fuel t st sc w) as [[w1 r]|e|] eqn:Hts; simpl; try done.
  apply time_step_effects in Hts
    as (a & rew & Done & lives & next & _ & _ & _ & _ & Hpush & Hsteps & Htgt & Hopt & Hdur & Hfiles).
  assert (Hpush1 : pushes (replay w) [mkTransition st (long_tensor a) next (reward_tensor rew)]
                   = Value (replay w1)).
  { simpl. unfold push_transition. simpl. by rewrite Hpush. }
  destruct r as [[s cur]|]; simpl.
  - intros Hloop.
    apply IH in Hloop as (d & Hd & Hs' & Hdur' & Htgt' & Hopt' & (trs & Hlen & Hpushes) & Hfiles').
    rewrite app_nil_r in Hdur, Hfiles.
    exists (S d). split; [lia|]. split; [lia|].
    replace (t + Z.of_nat (S d)) with (t + 1 + Z.of_nat d) by lia.
    split; [congruence|]. split; [congruence|]. split; [|split].
    + intros Hlt. pose proof (pushes_len_mono _ _ _ Hpushes).
      rewrite Hopt' by done. apply Hopt. lia.
    + exists (mkTransition st (long_tensor a) next (reward_tensor rew) :: trs).
      split; [simpl; lia|].
      change (mkTransition st (long_tensor a) next (reward_tensor rew) :: trs)
        with ([mkTransition st (long_tensor a) next (reward_tensor rew)] ++ trs).
      by rewrite pushes_app, Hpush1.
    + congruence.
  - intros [= <-]. exists 1%nat. split; [lia|]. split; [lia|].
    split; [done|]. split; [done|]. split; [done|]. split; [|done].
    by eexists [_].
Qed.

Lemma end_of_episode_effects (i : Z) (w : World) :
  files (end_of_episode i w) = files w ++ checkpoint_files i w ∧
  optimizer (end_of_episode i w) = optimizer w ∧
  replay (end_of_episode i w) = replay w ∧
  steps_done (end_of_episode i w) = steps_done w ∧
  episode_durations (end_of_episode i w) = episode_durations w.
Proof.
  unfold end_of_episode, checkpoint_files, TARGET_UPDATE.
  destruct (Z.eqb_spec (i mod 1000) 0) as [H1000|H1000];
    destruct (decide (i mod 1000 = 0)); try done.
  - assert (H200 : i mod 200 = 0).
    { apply Z.mod_divide; [lia|]. apply Z.mod_divide in H1000; [|lia].
      destruct H1000 as [q ->]. exists (q * 5). lia. }
    rewrite H200. simpl. by rewrite <- app_assoc.
  - destruct (i mod 200 =? 0); simpl; by rewrite app_nil_r.
Qed.

(** One episode, read off its result. *)
Lemma episode_effects (rounds fuel : nat) (i : Z) (w w' : World) :
  episode rounds fuel i w = Value w' →
  ∃ d : nat, (1 ≤ d ≤ rounds)%nat ∧
    steps_done w' = steps_done w + Z.of_nat d ∧
    episode_durations w' = episode_durations w ++ [Z.of_nat d] ∧
    target_net w' = (if decide (i mod 200 = 0) then policy_net w' else target_net w) ∧
    (len (replay w') < BATCH_SIZE → optimizer w' = optimizer w) ∧
    (∃ trs : list (Transition tensor),
        length trs = d ∧ pushes (replay w) trs = Value (replay w')) ∧
    files w' = files w ++ plot_file (episode_durations w ++ [Z.of_nat d])
                       ++ checkpoint_files i w'.
Proof.
  unfold episode.
  pose proof (step_env_frame 1 (with_environment (env_reset (environment w)) (env_calls w) w))
    as (_ & Ftgt & Fopt & Frep & Fsteps & Fdur & _ & Ffiles & _).
  destruct (step_env 1 _) as [r0 w0]. simpl in *.
  destruct (episode_loop rounds fuel 0 _ _ w0) as [w1|e|] eqn:Hloop; simpl; try done.
  apply episode_loop_effects in Hloop
    as (d & Hd & Hsteps & Hdur & Htgt & Hopt & (trs & Hlen & Hpushes) & Hfiles).
  intros [= <-].
  destruct (end_of_episode_effects i w1) as (Efiles & Eopt & Erep & Esteps & Edur).
  destruct (end_of_episode_nets i w1) as (Epol & Etgt).
  exists d. split; [done|]. rewrite Esteps, Edur, Etgt, Epol, Eopt, Erep, Efiles.
  split; [lia|]. split; [by rewrite Hdur, Fdur|].
  split; [destruct (decide _); congruence|].
  split; [intros Hlt; rewrite Hopt by done; done|].
  split; [exists trs; by rewrite <- Frep|].
  rewrite Hfiles, Ffiles, Fdur, <- app_assoc. do 2 f_equal.
  unfold checkpoint_files. by rewrite Epol.
Qed.

Lemma sum_Z_app (l k : list Z) : sum_Z (l ++ k) = sum_Z l + sum_Z k.
Proof. induction l as [|x l IH]; simpl; [done|]. rewrite IH. lia. Qed.

(** A run of episodes, read off its result: [ds] lists the rounds played
    in each. *)
Lemma training_effects (rounds fuel : nat) (episodes : list Z) (w w' : World) :
  training rounds fuel episodes w = Value w' →
  ∃ ds : list Z,
    length ds = length episodes ∧
    Forall (fun d => 1 <= d <= Z.of_nat rounds) ds ∧
    episode_durations w' = episode_durations w ++ ds ∧
    steps_done w' = steps_done w + sum_Z ds ∧
    (len (replay w') < BATCH_SIZE → optimizer w' = optimizer w) ∧
    ∃ trs : list (Transition tensor),
      Z.of_nat (length trs) = sum_Z ds ∧ pushes (replay w) trs = Value (replay w').
Proof.
  revert w. induction episodes as [|i episodes IH]; intros w; simpl.
  - intros [= <-]. exists []. simpl. rewrite app_nil_r.
    repeat split; try done; try lia. by exists [].
  - destruct (episode rounds fuel i w) as [w1|e|] eqn:Hep; simpl; try done.
    apply episode_effects in Hep
      as (d & Hd & Hsteps & Hdur & _ & Hopt & (trs & Hlen & Hpushes) & _).
    intros Hrest.
    apply IH in Hrest as (ds & Hds & Hall & Hdur' & Hsteps' & Hopt' & (trs' & Hlen' & Hpushes')).
    exists (Z.of_nat d :: ds). simpl.
    split; [lia|]. split; [constructor; [lia|done]|].
    split; [by rewrite Hdur', Hdur, <- app_assoc|].
    split; [lia|]. split.
    + intros Hlt. pose proof (pushes_len_mono _ _ _ Hpushes').
      rewrite Hopt' by done. apply Hopt. lia.
    + exists (trs ++ trs'). split; [rewrite length_app; lia|].
      by rewrite pushes_app, Hpushes.
Qed.

Lemma episode_names (rounds fuel k : nat) (w w' : World) :
  length (episode_durations w) = k →
  episode rounds fuel (Z.of_nat k) w = Value w' →
  (files w').*1 = (files w).*1 ++ episode_file_names (Z.of_nat k) ∧
  length (episode_durations w') = S k.
Proof.
  intros Hk Hep.
  apply episode_effects in Hep as (d & _ & _ & Hdur & _ & _ & _ & Hfiles).
  split; [|rewrite Hdur, length_app; simpl; lia].
  rewrite Hfiles, !fmap_app. f_equal. unfold episode_file_names. f_equal.
  - unfold plot_file.
    assert (Hlen : Py.len (episode_durations w ++ [Z.of_nat d]) = Z.of_nat k + 1).
    { unfold Py.len. rewrite length_app. simpl. lia. }
    rewrite Hlen. by destruct (decide _).
  - unfold checkpoint_files. by destruct (decide _).
Qed.

Lemma training_names (rounds fuel n k : nat) (w w' : World) :
  length (episode_durations w) = k →
  training rounds fuel (Z.of_nat <$> seq k n) w = Value w' →
  (files w').*1 = (files w).*1 ++ ((Z.of_nat <$> seq k n) ≫= episode_file_names).
Proof.
  revert k w. induction n as [|n IH]; intros k w Hk; simpl.
  - intros [= <-]. by rewrite app_nil_r.
  - destruct (episode rounds fuel (Z.of_nat k) w) as [w1|e|] eqn:Hep; simpl; try done.
    apply (episode_names _ _ k) in Hep as [Hnames Hk1]; [|done].
    intros Hrest. apply (IH (S k)) in Hrest; [|done].
    rewrite Hrest, Hnames. by rewrite <- app_assoc.
Qed.


(** X8. Every call of [select_action] returns, counts one step more in
    [steps_done], and leaves the replay memory, the target network, the
    optimizer, the durations, the environment and the files alone. *)
Theorem select_action_counts_one_step (w : World) (st : tensor) :
  ∃ a w1, select_action w st = Value (a, w1) ∧
          steps_done w1 = steps_done w + 1 ∧ same_but_selection w w1.
Proof.
  destruct (select_action_spec w st) as (a & w1 & Hsel & _).
  exists a, w1. split; [done|]. by apply select_action_frame in Hsel.
Qed.

(** X9. With [BATCH_SIZE] transitions or more in the replay memory, an
    [optimize_model] that returns has drawn a batch of exactly [BATCH_SIZE]
    entries from different slots of the memory and made the training step
    on it; it leaves the replay memory and the target network alone. *)
Theorem optimize_model_trains_on_a_batch (fuel : nat) (w w' : World) :
  BATCH_SIZE <= len (replay w) → optimize_model fuel w = Value w' →
  ∃ (batch : list (option (Transition tensor))) (slots : list nat),
    Py.len batch = BATCH_SIZE ∧ NoDup slots ∧
    Forall2 (fun i x => memory (replay w) !! i = Some x) slots batch ∧
    train_step (policy_net w) (target_net w) (optimizer w) batch =
      Value (policy_net w', optimizer w') ∧
    replay w' = replay w ∧ target_net w' = target_net w.
Proof.
  intros Hlen. unfold optimize_model.
  destruct (Z.ltb_spec (len (replay w)) BATCH_SIZE) as [?|_]; [lia|].
  pose proof (run_sample_in_range fuel (replay w) BATCH_SIZE (generator w)) as Hspec.
  destruct (run _ (generator w)) as [[batch|e|] g']; simpl in *; try done.
  destruct Hspec as (Hb & slots & Hnd & Hall); [unfold BATCH_SIZE in *; lia|].
  destruct (train_step _ _ _ batch) as [[p' o']|e|] eqn:Htrain; simpl; try done.
  intros [= <-]. simpl. by exists batch, slots.
Qed.


(** X11. In an episode nothing but its last step writes the target
    network: after episode [i] the target network is the policy network
    as the episode left it when [i mod 200 = 0], and what it was before the
    episode otherwise. *)
Theorem episode_syncs_target_on_schedule (rounds fuel : nat) (i : Z) (w w' : World) :
  episode rounds fuel i w = Value w' →
  target_net w' = (if decide (i mod 200 = 0) then policy_net w' else target_net w).
Proof.
  intros Hep. by apply episode_effects in Hep as (d & _ & _ & _ & Htgt & _).
Qed.

(** X12. An episode that completes appends exactly one duration, the
    number [d] of its rounds; [select_action] was called [d] times and [d]
    transitions were pushed into the replay memory. *)
Theorem episode_records_its_rounds (rounds fuel : nat) (i : Z) (w w' : World) :
  episode rounds fuel i w = Value w' →
  ∃ d : nat, (1 ≤ d ≤ rounds)%nat ∧
    episode_durations w' = episode_durations w ++ [Z.of_nat d] ∧
    steps_done w' = steps_done w + Z.of_nat d ∧
    ∃ trs : list (Transition tensor),
      length trs = d ∧ pushes (replay w) trs = Value (replay w').
Proof.
  intros Hep. apply episode_effects in Hep as (d & Hd & Hsteps & Hdur & _ & _ & Hpush & _).
  by exists d.
Qed.

(** X13. In a run from the state the script starts in, after any number of
    episodes: there is one duration per episode, [steps_done] is the sum of
    the durations, and the replay memory holds [min(steps_done, 100000)]
    transitions. *)
Theorem run_keeps_counts (rounds fuel : nat) (episodes : list Z)
    (p0 : params) (o0 : opt_state) (g : rng) (e : env) (w' : World) :
  training rounds fuel episodes (initial_world p0 o0 g e) = Value w' →
  Py.len (episode_durations w') = Py.len episodes ∧
  steps_done w' = sum_Z (episode_durations w') ∧
  len (replay w') = Z.min (steps_done w') 100000.
Proof.
  intros Hrun. apply training_effects in Hrun
    as (ds & Hds & _ & Hdur & Hsteps & _ & (trs & Hlen & Hpushes)).
  simpl in *. rewrite Hdur, Hsteps. split; [unfold Py.len; lia|]. split; [done|].
  destruct (pushes_ring_inv 100000 trs) as (m & Hm & Hinv); [lia|].
  assert (m = replay w') as -> by congruence.
  rewrite (ring_inv_len 100000 trs) by (done || lia). lia.
Qed.

(** X14. No training step is made before the replay memory holds
    [BATCH_SIZE] transitions: in a run from the state the script starts in,
    while [steps_done] is below [BATCH_SIZE] the optimizer is untouched. *)
Theorem no_training_before_batch_size (rounds fuel : nat) (episodes : list Z)
    (p0 : params) (o0 : opt_state) (g : rng) (e : env) (w' : World) :
  training rounds fuel episodes (initial_world p0 o0 g e) = Value w' →
  steps_done w' < BATCH_SIZE → optimizer w' = o0.
Proof.
  intros Hrun Hsteps. pose proof Hrun as Hrun'. apply training_effects in Hrun
    as (ds & _ & _ & _ & Hs & Hopt & (trs & Hlen & Hpushes)).
  simpl in *. apply Hopt.
  destruct (pushes_ring_inv 100000 trs) as (m & Hm & Hinv); [lia|].
  assert (m = replay w') as -> by congruence.
  rewrite (ring_inv_len 100000 trs) by (done || lia). unfold BATCH_SIZE in *. lia.
Qed.

(** X15. The files a run of [n] episodes leaves, by name and in the order
    they are written: for each episode [i] from 0, [Duration_<i+1>.png]
    when [i+1] is a multiple of 10, then [policy_net_<i>.pth] and
    [target_net_<i>.pth] when [i] is a multiple of 1000. *)
Theorem files_of_a_run (rounds fuel n : nat)
    (p0 : params) (o0 : opt_state) (g : rng) (e : env) (w' : World) :
  training rounds fuel (Z.of_nat <$> seq 0 n) (initial_world p0 o0 g e) = Value w' →
  (files w').*1 = (Z.of_nat <$> seq 0 n) ≫= episode_file_names.
Proof.
  intros Hrun. by apply (training_names _ _ n 0) in Hrun.
Qed.

End ScriptMore.

(** ** File names and the shapes of the network *)


(** X18. The 144 inputs of the head fit a square screen exactly when its
    side is between 74 and 89: the 74 by 74 screens that [resize] makes
    are the smallest the network accepts. *)
Theorem head_fits_screens_of_74_to_89 (n : Z) :
  Shape.flat_features n n = Value Shape.head_in_features ↔ 74 <= n <= 89.
Proof.
  unfold Shape.flat_features, Shape.side_out, Shape.window_out, Shape.head_in_features.
  split.
  - destruct (Z.ltb_spec n 4); simpl; [done|].
    destruct (Z.ltb_spec ((n - 4) / 2 + 1) 2); simpl; [done|].
    destruct (Z.ltb_spec (((n - 4) / 2 + 1 - 2) / 2 + 1) 4); simpl; [done|].
    destruct (Z.ltb_spec ((((n - 4) / 2 + 1 - 2) / 2 + 1 - 4) / 2 + 1) 4); simpl; [done|].
    intros [= Heq].
    set (d := (((((n - 4) / 2 + 1 - 2) / 2 + 1 - 4) / 2 + 1 - 4) / 2 + 1)) in *.
    assert (Hd1 : 1 <= d) by (unfold d; Z.div_mod_to_equations; lia).
    assert (Hd : d = 3).
    { destruct (decide (d <= 2)); [nia|]. destruct (decide (4 <= d)); [nia|]. lia. }
    clear Heq Hd1. unfold d in *. Z.div_mod_to_equations. lia.
  - intros Hn.
    destruct (Z.ltb_spec n 4); simpl; [lia|].
    destruct (Z.ltb_spec ((n - 4) / 2 + 1) 2); simpl; [Z.div_mod_to_equations; lia|].
    destruct (Z.ltb_spec (((n - 4) / 2 + 1 - 2) / 2 + 1) 4); simpl;
      [Z.div_mod_to_equations; lia|].
    destruct (Z.ltb_spec ((((n - 4) / 2 + 1 - 2) / 2 + 1 - 4) / 2 + 1) 4); simpl;
      [Z.div_mod_to_equations; lia|].
    f_equal.
    assert ((((((n - 4) / 2 + 1 - 2) / 2 + 1 - 4) / 2 + 1 - 4) / 2 + 1) = 3) as ->
      by (Z.div_mod_to_equations; lia).
    done.
Qed.

Lemma append_cons (a : ascii) (s t : string) : String a s +:+ t = String a (s +:+ t).
Proof. reflexivity. Qed.

Lemma length_append (s t : string) :
  String.length (s +:+ t) = (String.length s + String.length t)%nat.
Proof.
  induction s as [|a s IH]; [done|]. rewrite append_cons. simpl. by rewrite IH.
Qed.

Lemma append_inj_l (s s' t : string) : s +:+ t = s' +:+ t → s = s'.
Proof.
  intros Heq.
  assert (Hlen : String.length s = String.length s').
  { apply (f_equal String.length) in Heq. rewrite !length_append in Heq. lia. }
  revert s' Heq Hlen. induction s as [|a s IH]; intros [|a' s'] Heq Hlen; simpl in Hlen;
    try done.
  rewrite !append_cons in Heq. injection Heq as -> Heq. f_equal. apply IH; [done|lia].
Qed.

Lemma name_inj (prefix suffix : string) (i j : Z) :
  prefix +:+ Py.str i +:+ suffix = prefix +:+ Py.str j +:+ suffix → i = j.
Proof.
  intros Heq. apply String.app_inj in Heq. by apply append_inj_l, str_inj in Heq.
Qed.

(** X17. File names tell episodes apart: two checkpoints, or two plots,
    have the same name only for the same index, and a policy dump, a
    target dump and a plot never share a name. *)
Theorem file_names_are_distinct (i j : Z) :
  ("policy_net_" +:+ Py.str i +:+ ".pth" = "policy_net_" +:+ Py.str j +:+ ".pth" ↔ i = j) ∧
  ("target_net_" +:+ Py.str i +:+ ".pth" = "target_net_" +:+ Py.str j +:+ ".pth" ↔ i = j) ∧
  ("Duration_" +:+ Py.str i +:+ ".png" = "Duration_" +:+ Py.str j +:+ ".png" ↔ i = j) ∧
  "policy_net_" +:+ Py.str i +:+ ".pth" ≠ "target_net_" +:+ Py.str j +:+ ".pth" ∧
  "Duration_" +:+ Py.str i +:+ ".png" ≠ "policy_net_" +:+ Py.str j +:+ ".pth" ∧
  "Duration_" +:+ Py.str i +:+ ".png" ≠ "target_net_" +:+ Py.str j +:+ ".pth".
Proof.
  repeat split; try (by intros ->); try (by apply name_inj); discriminate.
Qed.

(** ** Checkpoints, and the extras on concrete inputs *)

Section CheckpointMore.
Context `{RandomSource} `{!Torch} `{!Gym}.

(** X16. A checkpoint is taken right after a synchronisation, 1000 being
    a multiple of 200: its two files hold the same parameters, those of the
    policy network. *)
Theorem checkpoint_files_hold_the_policy (i : Z) (w : World) :
  i mod 1000 = 0 →
  written w (end_of_episode i w) =
    [("policy_net_" +:+ Py.str i +:+ ".pth", StateDict (policy_net w));
     ("target_net_" +:+ Py.str i +:+ ".pth", StateDict (policy_net w))].
Proof.
  intros H1000. destruct (end_of_episode_effects i w) as (Hfiles & _).
  rewrite (written_app _ _ _ Hfiles). unfold checkpoint_files. by rewrite decide_True.
Qed.

End CheckpointMore.

Section MoreWitnesses.
#[local] Existing Instances Toy.floating Toy.counter Toy.torch Toy.gym.

Lemma push_without_capacity_raises_witness :
  0 <= 0 ∧
  pushes (init 0) [mkTransition 1%nat 0%nat (Some 2%nat) 0%nat] = Raised IndexError.
Proof. split; [lia|]. apply push_without_capacity_raises. lia. Defined.

Lemma filling_keeps_insertion_order_witness :
  0 < 4 ∧
  ∃ m, pushes (init 4) (Toy.transitions 3) = Value m ∧ capacity m = 4 ∧
       position m = Z.of_nat (length (Toy.transitions 3)) mod 4 ∧
       (Z.of_nat (length (Toy.transitions 3)) <= 4 → memory m = Some <$> Toy.transitions 3).
Proof. split; [lia|]. apply filling_keeps_insertion_order. lia. Defined.

Lemma slots_hold_last_pushes_witness :
  0 < 2 ∧
  ∃ m, pushes (init 2) (Toy.transitions 3) = Value m ∧
       ∀ x, x ∈ memory m ↔ ∃ t, x = Some t ∧ t ∈ retained 2 (Toy.transitions 3).
Proof. split; [lia|]. apply slots_hold_last_pushes. lia. Defined.

Lemma push_writes_one_slot_witness :
  0 < 2 ∧
  ∃ m m', pushes (init 2) (Toy.transitions 3) = Value m ∧
          push_transition m (mkTransition 7%nat 1%nat None 2%nat) = Value m' ∧
          memory m' !! Z.to_nat (position m) = Some (Some (mkTransition 7%nat 1%nat None 2%nat)) ∧
          ∀ i, i ≠ Z.to_nat (position m) → (i < length (memory m))%nat →
               memory m' !! i = memory m !! i.
Proof. split; [lia|]. apply push_writes_one_slot. lia. Defined.

Lemma pushed_transition_is_retained_witness :
  0 < 3 ∧ Z.of_nat (length (Toy.transitions 2)) < 3 ∧
  ∃ m, pushes (init 3) (Toy.transitions 3 ++ mkTransition 7%nat 1%nat None 2%nat
                          :: Toy.transitions 2) = Value m ∧
       Some (mkTransition 7%nat 1%nat None 2%nat) ∈ memory m.
Proof.
  split; [lia|]. split; [simpl; lia|].
  apply pushed_transition_is_retained; [lia|simpl; lia].
Defined.

(** The whole of a memory of three transitions, with the counting
    generator, and the whole of a memory of 22 transitions, with the
    generator of 64 states. *)
Lemma sample_all_is_permutation_witness :
  (len Toy.memory3 <= Random.setsize (len Toy.memory3) ∧
   ∃ batch g', run (sample 0 Toy.memory3 (len Toy.memory3)) 0%nat = (Value batch, g') ∧
               batch ≡ₚ memory Toy.memory3) ∧
  (@fair_from _ Toy.wheel (length (memory Toy.memory22)) (Toy.wheel_of 0) ∧
   ∃ fuel0, ∀ fuel', (fuel0 ≤ fuel')%nat →
     ∃ batch g', @run _ Toy.wheel _ (sample fuel' Toy.memory22 (len Toy.memory22))
                   (Toy.wheel_of 0) = (Value batch, g') ∧
                 batch ≡ₚ memory Toy.memory22).
Proof.
  assert (Hpool : len Toy.memory3 <= Random.setsize (len Toy.memory3))
    by (vm_compute; discriminate).
  assert (Hfair : @fair_from _ Toy.wheel (length (memory Toy.memory22)) (Toy.wheel_of 0))
    by exact (wheel_fair_from (Toy.wheel_of 0)).
  pose proof (@sample_all_is_permutation _ Toy.counter _ 0%nat Toy.memory3 0%nat)
    as (_ & Hret3 & _).
  pose proof (@sample_all_is_permutation _ Toy.wheel _ 0%nat Toy.memory22 (Toy.wheel_of 0))
    as (_ & _ & Hret22).
  split.
  - split; [exact Hpool|]. exact (Hret3 Hpool).
  - split; [exact Hfair|]. exact (Hret22 Hfair).
Defined.

(** The batch of the first of these runs. *)
Example sample_all_memory3 :
  run (sample 0 Toy.memory3 (len Toy.memory3)) 0%nat =
    (Value Toy.sample_all3.1, Toy.sample_all3.2).
Proof. reflexivity. Qed.

Lemma sample_returns_pushed_transitions_witness :
  0 < 4 ∧ pushes (init 4) (Toy.transitions 3) = Value Toy.memory3 ∧
  ∃ batch g', run (sample 1 Toy.memory3 2) 0%nat = (Value batch, g') ∧
    Forall (fun x => ∃ t, x = Some t ∧ t ∈ retained 4 (Toy.transitions 3)) batch.
Proof.
  assert (Hrun : run (sample 1 Toy.memory3 2) 0%nat =
                 (Value Toy.sample_two3.1, Toy.sample_two3.2)) by reflexivity.
  assert (Hc : 0 < 4) by lia.
  assert (Hpush : pushes (init 4) (Toy.transitions 3) = Value Toy.memory3) by reflexivity.
  split; [exact Hc|]. split; [exact Hpush|].
  exists Toy.sample_two3.1, Toy.sample_two3.2. split; [exact Hrun|].
  exact (sample_returns_pushed_transitions 4 (Toy.transitions 3) 1 Toy.memory3 2
           0%nat _ _ Hc Hpush Hrun).
Defined.

Lemma optimize_model_trains_on_a_batch_witness :
  BATCH_SIZE <= len (replay Toy.world256) ∧
  ∃ w', optimize_model 1 Toy.world256 = Value w' ∧
    ∃ (batch : list (option (Transition nat))) (slots : list nat),
      Py.len batch = BATCH_SIZE ∧ NoDup slots ∧
      Forall2 (fun i x => memory (replay Toy.world256) !! i = Some x) slots batch ∧
      train_step (policy_net Toy.world256) (target_net Toy.world256)
                 (optimizer Toy.world256) batch =
        Value (policy_net w', optimizer w') ∧
      replay w' = replay Toy.world256 ∧ target_net w' = target_net Toy.world256.
Proof.
  assert (Hlen : BATCH_SIZE <= len (replay Toy.world256)) by (vm_compute; discriminate).
  assert (Hrun : optimize_model 1 Toy.world256 = Value Toy.world256_optimized)
    by (vm_cast_no_check (eq_refl (Value Toy.world256_optimized))).
  split; [exact Hlen|]. exists Toy.world256_optimized. split; [exact Hrun|].
  exact (optimize_model_trains_on_a_batch 1 Toy.world256 _ Hlen Hrun).
Defined.


Lemma checkpoint_files_hold_the_policy_witness :
  2000 mod 1000 = 0 ∧
  written Toy.world0 (end_of_episode 2000 Toy.world0) =
    [("policy_net_" +:+ Py.str 2000 +:+ ".pth", StateDict (policy_net Toy.world0));
     ("target_net_" +:+ Py.str 2000 +:+ ".pth", StateDict (policy_net Toy.world0))].
Proof.
  assert (H1000 : 2000 mod 1000 = 0) by reflexivity.
  split; [exact H1000|]. exact (checkpoint_files_hold_the_policy 2000 Toy.world0 H1000).
Defined.

End MoreWitnesses.

Section SlowWitnesses.
#[local] Existing Instances Toy.floating Toy.counter Toy.torch Toy.slow_gym.

(** Episode 200 of a run in the slow environment: nine rounds, and the
    target network synchronised at its end. *)
Lemma episode_syncs_target_on_schedule_witness :
  ∃ w', episode 9 0 200 Toy.slow_world0 = Value w' ∧
        target_net w' = (if decide (200 mod 200 = 0) then policy_net w'
                         else target_net Toy.slow_world0).
Proof.
  assert (Hrun : episode 9 0 200 Toy.slow_world0 = Value Toy.slow_world200)
    by (vm_cast_no_check (eq_refl (Value Toy.slow_world200))).
  exists Toy.slow_world200. split; [exact Hrun|].
  exact (episode_syncs_target_on_schedule 9 0 200 Toy.slow_world0 _ Hrun).
Defined.

Lemma episode_records_its_rounds_witness :
  ∃ w', episode 9 0 200 Toy.slow_world0 = Value w' ∧
    ∃ d : nat, (1 ≤ d ≤ 9)%nat ∧
      episode_durations w' = episode_durations Toy.slow_world0 ++ [Z.of_nat d] ∧
      steps_done w' = steps_done Toy.slow_world0 + Z.of_nat d ∧
      ∃ trs : list (Transition nat),
        length trs = d ∧ pushes (replay Toy.slow_world0) trs = Value (replay w').
Proof.
  assert (Hrun : episode 9 0 200 Toy.slow_world0 = Value Toy.slow_world200)
    by (vm_cast_no_check (eq_refl (Value Toy.slow_world200))).
  exists Toy.slow_world200. split; [exact Hrun|].
  exact (episode_records_its_rounds 9 0 200 Toy.slow_world0 _ Hrun).
Defined.

(** The durations of that episode: nine rounds. *)
Example slow_episode_duration : episode_durations Toy.slow_world200 = [9].
Proof. reflexivity. Qed.

Lemma run_keeps_counts_witness :
  ∃ w', training 9 0 [0; 1; 2] (initial_world 0%nat 0%nat 0%nat 40%nat) = Value w' ∧
    Py.len (episode_durations w') = Py.len [0; 1; 2] ∧
    steps_done w' = sum_Z (episode_durations w') ∧
    len (replay w') = Z.min (steps_done w') 100000.
Proof.
  assert (Hrun : training 9 0 [0; 1; 2] (initial_world 0%nat 0%nat 0%nat 40%nat) =
                 Value Toy.slow_run3)
    by (vm_cast_no_check (eq_refl (Value Toy.slow_run3))).
  exists Toy.slow_run3. split; [exact Hrun|].
  exact (run_keeps_counts 9 0 [0; 1; 2] 0%nat 0%nat 0%nat 40%nat _ Hrun).
Defined.

Lemma no_training_before_batch_size_witness :
  ∃ w', training 9 0 [0; 1; 2] (initial_world 0%nat 0%nat 0%nat 40%nat) = Value w' ∧
        steps_done w' < BATCH_SIZE ∧ optimizer w' = 0%nat.
Proof.
  assert (Hrun : training 9 0 [0; 1; 2] (initial_world 0%nat 0%nat 0%nat 40%nat) =
                 Value Toy.slow_run3)
    by (vm_cast_no_check (eq_refl (Value Toy.slow_run3))).
  assert (Hsteps : steps_done Toy.slow_run3 < BATCH_SIZE) by reflexivity.
  exists Toy.slow_run3. split; [exact Hrun|]. split; [exact Hsteps|].
  exact (no_training_before_batch_size 9 0 [0; 1; 2] 0%nat 0%nat 0%nat 40%nat _ Hrun Hsteps).
Defined.

End SlowWitnesses.

Section RunWitnesses.
#[local] Existing Instances Toy.floating Toy.counter Toy.torch Toy.gym.

Lemma files_of_a_run_witness :
  ∃ w', training 1 0 (Z.of_nat <$> seq 0 10) (initial_world 0%nat 0%nat 0%nat 5%nat) = Value w' ∧
        (files w').*1 = (Z.of_nat <$> seq 0 10) ≫= episode_file_names.
Proof.
  assert (Hrun : training 1 0 (Z.of_nat <$> seq 0 10) (initial_world 0%nat 0%nat 0%nat 5%nat)
                 = Value Toy.run10)
    by (vm_cast_no_check (eq_refl (Value Toy.run10))).
  exists Toy.run10. split; [exact Hrun|].
  exact (files_of_a_run 1 0 10 0%nat 0%nat 0%nat 5%nat _ Hrun).
Defined.

(** The files of ten episodes. *)
Example files_of_ten_episodes :
  (files Toy.run10).*1 =
    ["policy_net_0.pth"; "target_net_0.pth"; "Duration_10.png"]%string.
Proof. reflexivity. Qed.

End RunWitnesses.
